(** * GNN-based actor-critic agent (examples/cim/ac_gnn/agent/gnn_based_actor_critic.py)

    A shallow embedding of the graph batcher ([union], [flatten_embedding]),
    the configuration object, [learn], [choose_action] and the weight store
    ([load_model], [_set_gnn_weights]).

    Conventions.
    - A torch tensor or numpy array is a [tensor]: a shape and the entries in
      row-major (C) order.
    - Entries of integer tensors are [Z]; int64 arithmetic is written with
      its wrap-around ([wrap64]).
    - Entries of floating-point tensors are rationals ([Q]): rounding is not
      modelled, so results are those of exact arithmetic.
    - A Python exception is an [Err] result carrying the exception class. *)

From Stdlib Require Import String Ascii DecimalString.
From Stdlib Require Import List ZArith QArith Bool Arith Lia.
From Stdlib Require Import Sorting.Sorted Sorting.Permutation.
From Stdlib Require DecimalPos DecimalZ.
Import ListNotations.

Local Close Scope Q_scope.
Local Open Scope nat_scope.

Set Implicit Arguments.

(* ================================================================== *)
(** ** Exceptions *)

Inductive py_error : Type :=
| ValueError
| IndexError
| RuntimeError
| AxisError
| FileNotFoundError.

Inductive result (A : Type) : Type :=
| Ok (a : A)
| Err (e : py_error).

Arguments Ok {A} a.
Arguments Err {A} e.

Definition bind {A B : Type} (r : result A) (k : A -> result B) : result B :=
  match r with
  | Ok a => k a
  | Err e => Err e
  end.

Notation "x <- e ;; k" := (bind e (fun x => k))
  (at level 61, e at next level, right associativity).
Notation "' p <- e ;; k" := (bind e (fun p => k))
  (at level 61, p pattern, e at next level, right associativity).

(* ================================================================== *)
(** ** int64 arithmetic *)

Definition wrap64 (z : Z) : Z := ((z + 2 ^ 63) mod 2 ^ 64 - 2 ^ 63)%Z.
Definition add64 (a b : Z) : Z := wrap64 (a + b).
Definition mul64 (a b : Z) : Z := wrap64 (a * b).
Definition in_int64 (z : Z) : Prop := (- 2 ^ 63 <= z < 2 ^ 63)%Z.

(* ================================================================== *)
(** ** Tensors *)

Record tensor (A : Type) : Type := mkTensor {
  shape : list nat;
  data : list A
}.

Definition numel (sh : list nat) : nat := fold_right Nat.mul 1 sh.

(** The entries fill the shape. *)
Definition wf_tensor {A : Type} (t : tensor A) : Prop :=
  length (data t) = numel (shape t).

Definition tmap {A B : Type} (f : A -> B) (t : tensor A) : tensor B :=
  mkTensor (shape t) (map f (data t)).

(** [t.view(s0, s1, ...)] for a contiguous tensor and explicit sizes [sh]. *)
Definition view {A : Type} (t : tensor A) (sh : list nat) : result (tensor A) :=
  if numel sh =? numel (shape t) then Ok (mkTensor sh (data t))
  else Err RuntimeError.

(** [t.reshape(-1, *tail)]: the leading size is inferred.  torch refuses
    the call when the known sizes multiply to zero (the inferred size is
    ambiguous or the shape invalid) or do not divide the element count. *)
Definition reshape_rows {A : Type} (t : tensor A) (tail : list nat)
  : result (tensor A) :=
  let k := numel tail in
  if k =? 0 then Err RuntimeError
  else if numel (shape t) mod k =? 0
       then Ok (mkTensor (numel (shape t) / k :: tail) (data t))
       else Err RuntimeError.

(** [np.expand_dims(t, axis)] for a non-negative axis. *)
Definition expand_dims {A : Type} (t : tensor A) (axis : nat)
  : result (tensor A) :=
  if axis <=? length (shape t)
  then Ok (mkTensor (firstn axis (shape t) ++ 1 :: skipn axis (shape t)) (data t))
  else Err AxisError.

(** Broadcasting.  [expand src tgt d] lays the entries [d] of a tensor of
    shape [src] out over the shape [tgt] of equal rank: along an axis of
    size 1 the single block is repeated. *)
Fixpoint expand {A : Type} (src tgt : list nat) (d : list A) : list A :=
  match src, tgt with
  | s :: ss, t :: ts =>
      let blk := numel ss in
      flat_map
        (fun i => expand ss ts (firstn blk (skipn ((if s =? 1 then 0 else i) * blk) d)))
        (seq 0 t)
  | _, _ => d
  end.

Fixpoint expandable (src tgt : list nat) : bool :=
  match src, tgt with
  | [], [] => true
  | s :: ss, t :: ts => ((s =? t) || (s =? 1)) && expandable ss ts
  | _, _ => false
  end.

Definition pad_shape (rank : nat) (sh : list nat) : list nat :=
  repeat 1 (rank - length sh) ++ sh.

Definition broadcast_to {A : Type} (t : tensor A) (sh : list nat)
  : result (tensor A) :=
  let src := pad_shape (length sh) (shape t) in
  if (length (shape t) <=? length sh) && expandable src sh
  then Ok (mkTensor sh (expand src sh (data t)))
  else Err RuntimeError.

Fixpoint broadcast_shapes_aligned (s1 s2 : list nat) : option (list nat) :=
  match s1, s2 with
  | [], [] => Some []
  | a :: s1', b :: s2' =>
      match broadcast_shapes_aligned s1' s2' with
      | Some r =>
          if a =? b then Some (a :: r)
          else if a =? 1 then Some (b :: r)
          else if b =? 1 then Some (a :: r)
          else None
      | None => None
      end
  | _, _ => None
  end.

Definition broadcast_shapes (s1 s2 : list nat) : option (list nat) :=
  let r := Nat.max (length s1) (length s2) in
  broadcast_shapes_aligned (pad_shape r s1) (pad_shape r s2).

Fixpoint zip_with {A B C : Type} (f : A -> B -> C) (l1 : list A) (l2 : list B)
  : list C :=
  match l1, l2 with
  | a :: l1', b :: l2' => f a b :: zip_with f l1' l2'
  | _, _ => []
  end.

(** An element-wise binary operation with broadcasting. *)
Definition binop {A B C : Type} (f : A -> B -> C) (t1 : tensor A) (t2 : tensor B)
  : result (tensor C) :=
  match broadcast_shapes (shape t1) (shape t2) with
  | Some sh =>
      a <- broadcast_to t1 sh ;;
      b <- broadcast_to t2 sh ;;
      Ok (mkTensor sh (zip_with f (data a) (data b)))
  | None => Err RuntimeError
  end.

(** The in-place form [t1 op= t2]: the right operand is broadcast to the
    shape of the left one, which keeps its shape. *)
Definition binop_inplace {A B : Type} (f : A -> B -> A) (t1 : tensor A) (t2 : tensor B)
  : result (tensor A) :=
  b <- broadcast_to t2 (shape t1) ;;
  Ok (mkTensor (shape t1) (zip_with f (data t1) (data b))).

(** [t[mask] = v] for a boolean mask of the shape of [t]. *)
Definition masked_fill {A : Type} (t : tensor A) (mask : tensor bool) (v : A)
  : tensor A :=
  mkTensor (shape t) (zip_with (fun e (m : bool) => if m then v else e) (data t) (data mask)).

(** [chunks n w l]: the first [n] consecutive blocks of [w] entries. *)
Fixpoint chunks {A : Type} (n w : nat) (l : list A) : list (list A) :=
  match n with
  | 0 => []
  | S n' => firstn w l :: chunks n' w (skipn w l)
  end.

(** The blocks of a tensor along its leading axis. *)
Definition rows_of {A : Type} (t : tensor A) : list (list A) :=
  match shape t with
  | r :: rest => chunks r (numel rest) (data t)
  | [] => []
  end.

(** Boolean-mask selection [l[mask]]. *)
Fixpoint mask_select {A : Type} (mask : list bool) (l : list A) : list A :=
  match mask, l with
  | m :: mask', a :: l' =>
      if m then a :: mask_select mask' l' else mask_select mask' l'
  | _, _ => []
  end.

Definition count_true (mask : list bool) : nat :=
  length (filter (fun b : bool => b) mask).

(** [t[:, mask]] (and [t[:, mask, :]]): boolean-mask indexing along axis 1.
    The mask length has to equal the size of that axis. *)
Definition index_cols {A : Type} (t : tensor A) (mask : list bool)
  : result (tensor A) :=
  match shape t with
  | r :: c :: rest =>
      if c =? length mask
      then
        let blk := numel rest in
        Ok (mkTensor (r :: count_true mask :: rest)
              (flat_map
                 (fun row => concat (mask_select mask (chunks c blk row)))
                 (rows_of t)))
      else Err IndexError
  | _ => Err IndexError
  end.

(** [t.sum(dim=0)] of a 2-D int64 tensor. *)
Definition col_sum (rows : list (list Z)) (j : nat) : Z :=
  fold_left (fun s row => add64 s (nth j row 0%Z)) rows 0%Z.

Definition sum_dim0 (t : tensor Z) : list Z :=
  map (col_sum (rows_of t)) (seq 0 (nth 1 (shape t) 0)).

(** [t.transpose(0, 1)], returned in row-major order of the new shape. *)
Definition transpose01 {A : Type} (t : tensor A) : result (tensor A) :=
  match shape t with
  | r :: c :: rest =>
      let blk := numel rest in
      Ok (mkTensor (c :: r :: rest)
            (flat_map
               (fun j =>
                  flat_map
                    (fun i => firstn blk (skipn ((i * c + j) * blk) (data t)))
                    (seq 0 r))
               (seq 0 c)))
  | _ => Err IndexError
  end.

(** [torch.arange(n)]. *)
Definition arange (n : nat) : tensor Z :=
  mkTensor [n] (map Z.of_nat (seq 0 n)).

(* ================================================================== *)
(** ** flatten_embedding *)

(** Line 241: [ret.sum(dim=0) != 0]. *)
Definition col_mask_of (ret : tensor Z) : list bool :=
  map (fun s => negb (s =? 0)%Z) (sum_dim0 ret).

(** The columns that the mask keeps, by index. *)
Definition kept_columns (ret : tensor Z) : list nat :=
  filter (fun j => negb (col_sum (rows_of ret) j =? 0)%Z)
         (seq 0 (nth 1 (shape ret) 0)).

(** The result carries, first, the argument [embedding] as the call leaves
    it: lines 238 and 239 update it in place. *)
Definition flatten_embedding {E : Type}
    (embedding : tensor Z) (batch_range : tensor Z) (edge : option (tensor E))
  : result (tensor Z * tensor Z * option (tensor E)) :=
  addon <-
    match shape embedding with
    | [batch; x_cnt; y_cnt] =>
        view (tmap (fun b => mul64 b (Z.of_nat y_cnt)) batch_range) [batch; 1; 1]
    | [seq_len; batch; x_cnt; y_cnt] =>
        view (tmap (fun b => mul64 b (Z.of_nat y_cnt)) batch_range)
             [seq_len; batch; 1; 1]
    | _ => Err ValueError
    end ;;
  let embedding_mask := tmap (fun e => (e =? 0)%Z) embedding in
  embedding <- binop_inplace add64 embedding addon ;;
  let embedding := masked_fill embedding embedding_mask 0%Z in
  ret <- reshape_rows embedding [last (shape embedding) 0] ;;
  let col_mask := col_mask_of ret in
  ret <- index_cols ret col_mask ;;
  match edge with
  | None => Ok (embedding, ret, None)
  | Some edge =>
      edge <- reshape_rows edge (skipn 2 (shape edge)) ;;
      edge <-
        match shape edge with
        | _ :: _ :: _ :: _ => index_cols edge col_mask
        | _ => Err IndexError
        end ;;
      Ok (embedding, ret, Some edge)
  end.

(* ================================================================== *)
(** ** GNNBasedActorCriticConfig

    [p2p_adj] is taken to be an int64 array, like the index arrays of a
    state once [union] has converted them. *)

Record GNNBasedActorCriticConfig : Type := mkConfig {
  p2p_adj : tensor Z;
  td_steps : Z;
  reward_discount : Q;
  value_discount : Q;
  actor_loss_coefficient : Q;
  entropy_factor : Q
}.

(** [GNNBasedActorCriticConfig.__init__] (lines 30 to 43). *)
Definition GNNBasedActorCriticConfig_init
    (p2p_adj : tensor Z) (td_steps : Z) (reward_discount : Q)
    (actor_loss_coefficient : Q) (entropy_factor : Q)
  : GNNBasedActorCriticConfig :=
  {| p2p_adj := p2p_adj;
     td_steps := td_steps;
     reward_discount := reward_discount;
     value_discount := Qpower reward_discount 100;
     actor_loss_coefficient := actor_loss_coefficient;
     entropy_factor := entropy_factor |}.

(** The defaults of the constructor's keyword arguments. *)
Definition default_td_steps : Z := 100.
Definition default_reward_discount : Q := (97 # 100)%Q.
Definition default_actor_loss_coefficient : Q := (1 # 10)%Q.
Definition default_entropy_factor : Q := (1 # 10)%Q.

(* ================================================================== *)
(** ** The state dictionary and [union] *)

(** The integer arrays of a state are numpy arrays; their dtype decides
    whether [torch.from_numpy(a).long()] is the same memory or a copy. *)
Inductive int_dtype : Type := Int32 | Int64.

Record int_array : Type := mkIntArray {
  dtype : int_dtype;
  arr : tensor Z
}.

Inductive device : Type := CPU | CUDA.

(** [torch.from_numpy(a).long().to(device)] returns a tensor on the memory
    of [a] exactly when neither conversion has anything to do. *)
Definition shares_memory (dt : int_dtype) (dev : device) : bool :=
  match dt, dev with
  | Int64, CPU => true
  | _, _ => false
  end.

(** The keys of the state dictionary that the agent reads. *)
Record raw_state : Type := mkState {
  s_v : tensor Q;
  s_p : tensor Q;
  s_vo : int_array;
  s_po : int_array;
  s_pedge : tensor Q;
  s_vedge : tensor Q;
  s_ppedge : tensor Q;
  s_mask : tensor Z;
  s_p_idx : Z;
  s_v_idx : Z
}.

Record relation : Type := mkRelation {
  edge : tensor Q;
  adj : tensor Z;
  mask : tensor bool
}.

Record batched_graph : Type := mkGraph {
  g_v : tensor Q;
  g_p : tensor Q;
  g_pe : relation;
  g_ve : relation;
  g_ppe : relation;
  g_mask : tensor bool
}.

(** [t.repeat(n, 1, 1)]: the tensor, seen with rank 3, stacked [n] times
    along the leading axis (a copy). *)
Definition repeat_leading {A : Type} (t : tensor A) (n : nat) : result (tensor A) :=
  match pad_shape 3 (shape t) with
  | [a; b; c] =>
      Ok (mkTensor [n * a; b; c] (concat (repeat (data t) n)))
  | _ => Err RuntimeError
  end.

(** What the caller's array holds after [flatten_embedding] has worked on
    the tensor made from it: the updated entries when the memory is shared
    ([np.expand_dims] is a view, so the shape in the state is the old one). *)
Definition written_back (dev : device) (a : int_array) (after : tensor Z) : int_array :=
  if shares_memory (dtype a) dev
  then mkIntArray (dtype a) (mkTensor (shape (arr a)) (data after))
  else a.

(** One relation of [union]: flatten, mask, transpose (lines 190 to 196). *)
Definition union_relation (embedding : tensor Z) (batch_range : tensor Z)
    (e : tensor Q) : result (tensor Z * relation) :=
  ' (after, xadj, xedge) <- flatten_embedding embedding batch_range (Some e) ;;
  match xedge with
  | Some xedge =>
      let xmask := tmap (fun a => (a =? 0)%Z) xadj in
      xadj <- transpose01 xadj ;;
      xedge <- transpose01 xedge ;;
      Ok (after, mkRelation xedge xadj xmask)
  | None => Err ValueError
  end.

(** [GNNBasedActorCritic.union] (lines 157 to 219).  The first component of
    the result is the state dictionary as the call leaves it. *)
Definition union (config : GNNBasedActorCriticConfig) (dev : device)
    (state : raw_state) : result (raw_state * batched_graph) :=
  let single := length (shape (s_p state)) =? 3 in
  let lift {A : Type} (axis : nat) (t : tensor A) : result (tensor A) :=
    if single then expand_dims t axis else Ok t in
  v <- lift 1 (s_v state) ;;
  p <- lift 1 (s_p state) ;;
  vo <- lift 0 (arr (s_vo state)) ;;
  po <- lift 0 (arr (s_po state)) ;;
  pedge <- lift 0 (s_pedge state) ;;
  vedge <- lift 0 (s_vedge state) ;;
  ppedge <- lift 0 (s_ppedge state) ;;
  seq_mask <- lift 0 (s_mask state) ;;
  match shape v, shape p with
  | [seq_len; batch; v_cnt; v_dim], [_; _; p_cnt; p_dim] =>
      let seq_mask := tmap (fun m => negb (m =? 0)%Z) seq_mask in
      let batch_range := arange batch in
      ' (vo_after, ve) <- union_relation vo batch_range vedge ;;
      ' (po_after, pe) <- union_relation po batch_range pedge ;;
      p2p_adj <- repeat_leading (p2p_adj config) batch ;;
      ' (_, ppe) <- union_relation p2p_adj batch_range ppedge ;;
      Ok (mkState (s_v state) (s_p state)
            (written_back dev (s_vo state) vo_after)
            (written_back dev (s_po state) po_after)
            (s_pedge state) (s_vedge state) (s_ppedge state) (s_mask state)
            (s_p_idx state) (s_v_idx state),
          mkGraph v p pe ve ppe seq_mask)
  | _, _ => Err ValueError
  end.

(* ================================================================== *)
(** ** The model, the distribution and the agent's two protocols *)

(** Python indexing of an axis of size [n] with a possibly negative index. *)
Definition norm_index (i : Z) (n : nat) : result nat :=
  if ((0 <=? i) && (i <? Z.of_nat n))%Z then Ok (Z.to_nat i)
  else if ((- Z.of_nat n <=? i) && (i <? 0))%Z then Ok (Z.to_nat (i + Z.of_nat n))
  else Err IndexError.

(** [a[0]] on an array. *)
Definition index0 {A : Type} (t : tensor A) : result (tensor A) :=
  match shape t with
  | d :: rest =>
      if 0 <? d then Ok (mkTensor rest (firstn (numel rest) (data t)))
      else Err IndexError
  | [] => Err IndexError
  end.

Definition Qsum (l : list Q) : Q := fold_left Qplus l 0%Q.

(** [t.mean()] over all entries.  (torch gives NaN for no entries; the
    rational model gives 0 there.) *)
Definition tmean (t : tensor Q) : Q :=
  (Qsum (data t) / inject_Z (Z.of_nat (length (data t))))%Q.

(** [torch.sum(t, axis=-1)]. *)
Definition sum_last (t : tensor Q) : tensor Q :=
  match shape t with
  | [] => t
  | _ :: _ =>
      let w := last (shape t) 0 in
      let n := numel (removelast (shape t)) in
      mkTensor (removelast (shape t)) (map Qsum (chunks n w (data t)))
  end.

(** [torch.sum(t, axis=1)]. *)
Definition sum_axis1 (t : tensor Q) : result (tensor Q) :=
  match shape t with
  | r :: c :: rest =>
      let blk := numel rest in
      Ok (mkTensor (r :: rest)
            (flat_map
               (fun row =>
                  map (fun k => Qsum (map (fun b => nth k b 0%Q) (chunks c blk row)))
                      (seq 0 blk))
               (rows_of t)))
  | _ => Err IndexError
  end.

(** [t[:, j] += rhs]: [rhs] is broadcast to the shape of the selected
    column, and only the entries of that column are written. *)
Definition col_iadd (t : tensor Q) (j : Z) (rhs : tensor Q) : result (tensor Q) :=
  match shape t with
  | r :: c :: rest =>
      j <- norm_index j c ;;
      rhs <- broadcast_to rhs (r :: rest) ;;
      let blk := numel rest in
      Ok (mkTensor (shape t)
            (zip_with
               (fun n a =>
                  if (n / blk) mod c =? j
                  then (a + nth ((n / (c * blk)) * blk + n mod blk) (data rhs) 0)%Q
                  else a)
               (seq 0 (length (data t))) (data t)))
  | _ => Err IndexError
  end.

Definition Qnonzero (q : Q) : bool := negb (Qeq_bool q 0).

Record learn_metrics : Type := mkMetrics {
  m_actor_loss : Q;
  m_critic_loss : Q;
  m_entropy_loss : Q;
  m_tot_norm : Q
}.

Section Agent.

(** The external collaborators: the model (its parameters are a value of
    type [model]), the categorical distribution of torch and the random
    generator it draws from, all taken to return.  A keyword argument that
    a call does not pass is [None].  [detach], [cpu] and [numpy] do not
    change values and have no counterpart here. *)
Variable model : Type.
Variable forward :
  model -> batched_graph -> option Z -> option Z ->
  option bool -> option bool -> option bool -> tensor Q * tensor Q.
(** [model.step(loss)] followed by the gradient clipping: the new
    parameters and the norm that [clip_grad_norm_] reports. *)
Variable step : model -> Q -> model * Q.
Variable rng : Type.
Variable sample : tensor Q -> rng -> tensor Z * rng.
Variable log_prob : tensor Q -> tensor Z -> tensor Q.
Variable entropy : tensor Q -> tensor Q.

Variable config : GNNBasedActorCriticConfig.
Variable dev : device.

(** [GNNBasedActorCritic.choose_action] (lines 48 to 85). *)
Definition choose_action (m : model) (state : raw_state) (g : rng)
  : result (raw_state * (tensor Z * tensor Q) * rng) :=
  let single := length (shape (s_p state)) =? 3 in
  ' (state', graph) <- union config dev state ;;
  let action_prob :=
    fst (forward m graph (Some (s_p_idx state)) (Some (s_v_idx state))
           (Some true) None (Some false)) in
  let '(action, g') := sample action_prob g in
  let log_p := log_prob action_prob action in
  if single
  then
    a0 <- index0 action ;;
    l0 <- index0 log_p ;;
    Ok (state', (a0, l0), g')
  else Ok (state', (action, log_p), g').

(** Line 116. *)
Definition td_advantage (returns values_ values : tensor Q) : result (tensor Q) :=
  t <- binop Qplus returns (tmap (Qmult (value_discount config)) values_) ;;
  binop Qminus t values.

(** Lines 118 to 120. *)
Definition entropy_bonus (p_idx : Z) (entropy_loss advantage : tensor Q)
  : result (tensor Q) :=
  if Qnonzero (entropy_factor config)
  then col_iadd advantage p_idx (tmap (Qmult (entropy_factor config)) entropy_loss)
  else Ok advantage.

(** Line 122. *)
Definition actor_loss_of (log_p advantage : tensor Q) : result Q :=
  t <- binop Qmult log_p (sum_last advantage) ;;
  Ok (- tmean t)%Q.

(** Line 123. *)
Definition critic_loss_of (advantage : tensor Q) : result Q :=
  t <- sum_axis1 (tmap (fun a => Qpower a 2) advantage) ;;
  Ok (tmean t).

(** [GNNBasedActorCritic.learn] (lines 87 to 128).  The result holds the
    two state dictionaries as the call leaves them, the updated model and
    the four reported numbers; its last component is the local variable
    [advantage] as line 122 reads it, kept so that it can be spoken of. *)
Definition learn (m : model) (states : raw_state) (actions : tensor Z)
    (returns : tensor Q) (next_states : raw_state) (p_idx v_idx : Z)
  : result (raw_state * raw_state * model * learn_metrics * tensor Q) :=
  ' (states', graph) <- union config dev states ;;
  ' (next_states', next_graph) <- union config dev next_states ;;
  let '(probs, values) :=
    forward m graph (Some p_idx) (Some v_idx) (Some true) (Some true) None in
  let log_p := log_prob probs actions in
  let entropy_loss := entropy probs in
  let '(_, values_) := forward m next_graph None None None (Some true) None in
  advantage <- td_advantage returns values_ values ;;
  advantage <- entropy_bonus p_idx entropy_loss advantage ;;
  actor_loss <- actor_loss_of log_p advantage ;;
  critic_loss <- critic_loss_of advantage ;;
  let tot_loss := (actor_loss_coefficient config * actor_loss + critic_loss)%Q in
  let '(m', tot_norm) := step m tot_loss in
  Ok (states', next_states', m',
      mkMetrics actor_loss critic_loss (tmean entropy_loss) tot_norm,
      advantage).


End Agent.

(* ================================================================== *)
(** ** Checkpoint files: [save_model], [_get_save_idx], [load_model]

    File names are ASCII strings. *)

(** ["ac" in f]. *)
Fixpoint contains_ac (f : string) : bool :=
  match f with
  | EmptyString => false
  | String c f' => prefix "ac"%string f || contains_ac f'
  end.

(** [s.split(sep)[0]]: the text before the first separator. *)
Fixpoint split_head (sep : ascii) (s : string) : string :=
  match s with
  | EmptyString => EmptyString
  | String c s' =>
      if Ascii.eqb c sep then EmptyString else String c (split_head sep s')
  end.

Definition is_space (c : ascii) : bool :=
  let n := nat_of_ascii c in
  ((9 <=? n) && (n <=? 13)) || (n =? 32).

Definition is_digit (c : ascii) : bool :=
  let n := nat_of_ascii c in
  (48 <=? n) && (n <=? 57).

Fixpoint lstrip (s : string) : string :=
  match s with
  | EmptyString => EmptyString
  | String c s' => if is_space c then lstrip s' else s
  end.

(** The text without its trailing white space. *)
Fixpoint rstrip (s : string) : string :=
  match s with
  | EmptyString => EmptyString
  | String c s' =>
      match rstrip s' with
      | EmptyString => if is_space c then EmptyString else String c EmptyString
      | r => String c r
      end
  end.

Fixpoint digits_value (acc : Z) (s : string) : option Z :=
  match s with
  | EmptyString => Some acc
  | String c s' =>
      if is_digit c
      then digits_value (10 * acc + Z.of_nat (nat_of_ascii c - 48)) s'
      else None
  end.

Definition unsigned_value (s : string) : option Z :=
  match s with
  | EmptyString => None
  | _ => digits_value 0 s
  end.

(** [int(s)] in base ten for a text without underscores (the text handed to
    it by [_get_save_idx] has none): white space around, an optional sign,
    at least one digit. *)
Definition py_int (s : string) : result Z :=
  let body := rstrip (lstrip s) in
  let parsed :=
    match body with
    | String "-"%char r => option_map Z.opp (unsigned_value r)
    | String "+"%char r => unsigned_value r
    | _ => unsigned_value body
    end in
  match parsed with
  | Some z => Ok z
  | None => Err ValueError
  end.

(** [_get_save_idx] (lines 130 and 131). *)
Definition _get_save_idx (fp_str : string) : result Z :=
  py_int (split_head "_"%char (split_head "."%char fp_str)).

(** [list.sort(key=...)]: the keys are computed first, for every element;
    the sort is stable. *)
Fixpoint with_keys (key : string -> result Z) (l : list string)
  : result (list (Z * string)) :=
  match l with
  | [] => Ok []
  | f :: l' =>
      k <- key f ;;
      r <- with_keys key l' ;;
      Ok ((k, f) :: r)
  end.

Fixpoint insert_by_key (x : Z * string) (l : list (Z * string))
  : list (Z * string) :=
  match l with
  | [] => [x]
  | y :: l' =>
      if (fst x <=? fst y)%Z then x :: y :: l' else y :: insert_by_key x l'
  end.

Definition sort_by_key (key : string -> result Z) (l : list string)
  : result (list string) :=
  keyed <- with_keys key l ;;
  Ok (map snd (fold_right insert_by_key [] keyed)).

(** The name under which [save_model] stores checkpoint [id] (line 136). *)
Definition checkpoint_name (id : Z) : string :=
  String.append (DecimalString.NilZero.string_of_int (Z.to_int id)) "_ac.pkl"%string.

(** Lines 147 to 149: the name chosen from the listing
    [os.listdir(folder_pth)]. *)
Definition latest_checkpoint (listing : list string) : result string :=
  let fps := filter contains_ac listing in
  fps <- sort_by_key _get_save_idx fps ;;
  match fps with
  | [] => Err IndexError
  | _ :: _ => Ok (last fps EmptyString)
  end.

(** [os.path.join(a, b)] (POSIX). *)
Definition os_path_join (a b : string) : string :=
  if prefix "/"%string b then b
  else if (String.length a =? 0) || prefix "/"%string (string_of_list_ascii (rev (list_ascii_of_string a)))
       then String.append a b
       else String.append a (String.append "/"%string b).

(** A state dictionary: parameter names and tensors, in order. *)
Definition state_dict : Type := list (string * tensor Q).

Fixpoint sd_lookup (key : string) (sd : state_dict) : option (tensor Q) :=
  match sd with
  | [] => None
  | (k, t) :: sd' => if String.eqb k key then Some t else sd_lookup key sd'
  end.

Fixpoint sd_update (key : string) (t : tensor Q) (sd : state_dict) : state_dict :=
  match sd with
  | [] => []
  | (k, t0) :: sd' =>
      if String.eqb k key then (k, t) :: sd' else (k, t0) :: sd_update key t sd'
  end.

(** [_set_gnn_weights] (lines 139 to 142): the entries of [weights] whose
    key the model has are copied over the model's ([copy_] broadcasts the
    source to the shape of the destination). *)
Fixpoint _set_gnn_weights (weights model_sd : state_dict) : result state_dict :=
  match weights with
  | [] => Ok model_sd
  | (key, w) :: weights' =>
      match sd_lookup key model_sd with
      | Some dst =>
          t <- broadcast_to w (shape dst) ;;
          _set_gnn_weights weights' (sd_update key t model_sd)
      | None => _set_gnn_weights weights' model_sd
      end
  end.

Section WeightStore.

(** The file system as the agent sees it: [os.listdir] and, for a path,
    what [open] followed by [torch.load] gives. *)
Variable listdir : string -> result (list string).
Variable torch_load : string -> result state_dict.

(** [load_model] (lines 144 to 155); the result is the model's state
    dictionary after the call. *)
Definition load_model (model_sd : state_dict) (folder_pth : string) (idx : Z)
  : result state_dict :=
  ac_pth <-
    (if (idx =? -1)%Z
     then
       fps <- listdir folder_pth ;;
       latest_checkpoint fps
     else Ok (checkpoint_name idx)) ;;
  let pth := os_path_join folder_pth ac_pth in
  weights <- torch_load pth ;;
  _set_gnn_weights weights model_sd.

End WeightStore.

(* ================================================================== *)
(** ** Sample data *)

(** Two samples, two source nodes each, two target slots. *)
Definition sample_adjacency : tensor Z :=
  mkTensor [2; 2; 2] [1; 0; 0; 0; 1; 0; 2; 0]%Z.

Definition sample_edges : tensor Q :=
  mkTensor [2; 2; 2; 1] [1; 2; 3; 4; 5; 6; 7; 8]%Q.

Definition sample_flattened : tensor Z * tensor Z * option (tensor Q) :=
  (mkTensor [2; 2; 2] [1; 0; 0; 0; 3; 0; 4; 0]%Z,
   mkTensor [4; 1] [1; 0; 3; 4]%Z,
   Some (mkTensor [4; 1; 1] [1; 3; 5; 7]%Q)).

(** The configuration of the end-to-end scenario: two ports, one vessel,
    [td_steps = 1], [reward_discount = 1]. *)
Definition scenario_config : GNNBasedActorCriticConfig :=
  GNNBasedActorCriticConfig_init (mkTensor [2; 2] [0; 1; 1; 0]%Z) 1 1
    default_actor_loss_coefficient default_entropy_factor.

(** A batch of two samples of that scenario (one time step), every node
    connected, the index arrays held as int64. *)
Definition scenario_state : raw_state :=
  {| s_v := mkTensor [1; 2; 1; 1] [0; 0]%Q;
     s_p := mkTensor [1; 2; 2; 1] [0; 0; 0; 0]%Q;
     s_vo := mkIntArray Int64 (mkTensor [2; 1; 2] [1; 2; 1; 2]%Z);
     s_po := mkIntArray Int64 (mkTensor [2; 2; 1] [1; 1; 1; 1]%Z);
     s_pedge := mkTensor [2; 2; 1; 1] [0; 0; 0; 0]%Q;
     s_vedge := mkTensor [2; 1; 2; 1] [0; 0; 0; 0]%Q;
     s_ppedge := mkTensor [2; 2; 2; 1] [0; 0; 0; 0; 0; 0; 0; 0]%Q;
     s_mask := mkTensor [1; 2] [1; 1]%Z;
     s_p_idx := 0;
     s_v_idx := 0 |}.

(** The batch of size 1 that holds one unbatched sample: every array gets
    the batch axis where the batched layout has it. *)
Definition batch_of_one (state : raw_state) : result raw_state :=
  v <- expand_dims (s_v state) 1 ;;
  p <- expand_dims (s_p state) 1 ;;
  vo <- expand_dims (arr (s_vo state)) 0 ;;
  po <- expand_dims (arr (s_po state)) 0 ;;
  pedge <- expand_dims (s_pedge state) 0 ;;
  vedge <- expand_dims (s_vedge state) 0 ;;
  ppedge <- expand_dims (s_ppedge state) 0 ;;
  seq_mask <- expand_dims (s_mask state) 0 ;;
  Ok (mkState v p (mkIntArray (dtype (s_vo state)) vo)
        (mkIntArray (dtype (s_po state)) po)
        pedge vedge ppedge seq_mask (s_p_idx state) (s_v_idx state)).

(** One unbatched sample of the scenario. *)
Definition single_state : raw_state :=
  {| s_v := mkTensor [1; 1; 1] [0]%Q;
     s_p := mkTensor [1; 2; 1] [0; 0]%Q;
     s_vo := mkIntArray Int64 (mkTensor [1; 2] [1; 2]%Z);
     s_po := mkIntArray Int64 (mkTensor [2; 1] [1; 1]%Z);
     s_pedge := mkTensor [2; 1; 1] [0; 0]%Q;
     s_vedge := mkTensor [1; 2; 1] [0; 0]%Q;
     s_ppedge := mkTensor [2; 2; 1] [0; 0; 0; 0]%Q;
     s_mask := mkTensor [1] [1]%Z;
     s_p_idx := 0;
     s_v_idx := 0 |}.

(** Stand-ins for the collaborators, used to run the protocols on the
    sample data: a critic that values every port at 1 where the actor is
    asked too and at 0 otherwise, a uniform policy over two actions, a
    sampler that always picks action 0. *)
Definition sample_forward (m : unit) (g : batched_graph) (p_idx v_idx : option Z)
    (use_actor use_critic training : option bool) : tensor Q * tensor Q :=
  let batch := nth 1 (shape (g_p g)) 0 in
  let p_cnt := nth 2 (shape (g_p g)) 0 in
  (mkTensor [batch; 2] (repeat (1 # 2)%Q (batch * 2)),
   mkTensor [batch; p_cnt]
     (repeat (match use_actor with Some true => 1%Q | _ => 0%Q end) (batch * p_cnt))).

Definition sample_step (m : unit) (loss : Q) : unit * Q := (tt, 0%Q).

Definition sample_sample (probs : tensor Q) (g : nat) : tensor Z * nat :=
  (mkTensor [nth 0 (shape probs) 0] (repeat 0%Z (nth 0 (shape probs) 0)), S g).

Definition sample_log_prob (probs : tensor Q) (actions : tensor Z) : tensor Q :=
  mkTensor (shape actions) (map (fun _ => (-1)%Q) (data actions)).

Definition sample_entropy (probs : tensor Q) : tensor Q :=
  mkTensor [nth 0 (shape probs) 0] (repeat 1%Q (nth 0 (shape probs) 0)).


(** The state dictionary and the graph that [union] leaves and returns for
    [scenario_state] on the CPU. *)
Definition scenario_state_after : raw_state :=
  {| s_v := s_v scenario_state;
     s_p := s_p scenario_state;
     s_vo := mkIntArray Int64 (mkTensor [2; 1; 2] [1; 2; 3; 4]%Z);
     s_po := mkIntArray Int64 (mkTensor [2; 2; 1] [1; 1; 2; 2]%Z);
     s_pedge := s_pedge scenario_state;
     s_vedge := s_vedge scenario_state;
     s_ppedge := s_ppedge scenario_state;
     s_mask := s_mask scenario_state;
     s_p_idx := 0;
     s_v_idx := 0 |}.

Definition scenario_graph : batched_graph :=
  {| g_v := mkTensor [1; 2; 1; 1] [0; 0]%Q;
     g_p := mkTensor [1; 2; 2; 1] [0; 0; 0; 0]%Q;
     g_pe := {| edge := mkTensor [1; 4; 1] [0; 0; 0; 0]%Q;
                adj := mkTensor [1; 4] [1; 1; 2; 2]%Z;
                mask := mkTensor [4; 1] [false; false; false; false] |};
     g_ve := {| edge := mkTensor [2; 2; 1] [0; 0; 0; 0]%Q;
                adj := mkTensor [2; 2] [1; 3; 2; 4]%Z;
                mask := mkTensor [2; 2] [false; false; false; false] |};
     g_ppe := {| edge := mkTensor [2; 4; 1] [0; 0; 0; 0; 0; 0; 0; 0]%Q;
                 adj := mkTensor [2; 4] [0; 1; 0; 3; 1; 0; 3; 0]%Z;
                 mask := mkTensor [4; 2]
                           [true; false; false; true; true; false; false; true] |};
     g_mask := mkTensor [1; 2] [true; true] |}.

(** A checkpoint folder: two checkpoints and a file of another kind. *)
Definition sample_listdir (folder : string) : result (list string) :=
  if String.eqb folder "ckpt" then Ok ["10_ac.pkl"; "9_ac.pkl"; "notes.txt"]%string
  else if String.eqb folder "empty" then Ok []
  else Err FileNotFoundError.

Definition sample_torch_load (pth : string) : result state_dict :=
  if String.eqb pth "ckpt/10_ac.pkl"
  then Ok [("w"%string, mkTensor [1] [10]%Q)]
  else if String.eqb pth "ckpt/9_ac.pkl"
  then Ok [("w"%string, mkTensor [1] [9]%Q)]
  else Err FileNotFoundError.

Definition sample_state_dict : state_dict :=
  [("w"%string, mkTensor [1] [0]%Q); ("b"%string, mkTensor [1] [0]%Q)].


(* ================================================================== *)
(** ** Auxiliary notions for the properties *)

(** The sum of a list of integers, without wrap-around. *)
Definition Zsum (l : list Z) : Z := fold_right Z.add 0%Z l.

(** A relation of the batched graph whose mask is the zero test of its
    adjacency, the mask laid out source-major ([R] rows of [m] targets)
    and the adjacency target-major. *)
Definition mask_marks_zero_adj (rel : relation) : Prop :=
  exists R m,
    shape (adj rel) = [m; R]
    /\ shape (mask rel) = [R; m]
    /\ forall r k, r < R -> k < m ->
         nth (r * m + k) (data (mask rel)) false
         = (nth (k * R + r) (data (adj rel)) 0 =? 0)%Z.

(** The path that [save_model] writes to (line 136). *)
Definition save_model_pth (pth : string) (id : Z) : string :=
  os_path_join pth (checkpoint_name id).

(** A text of decimal digits only. *)
Fixpoint all_digits (s : string) : bool :=
  match s with
  | EmptyString => true
  | String c s' => is_digit c && all_digits s'
  end.

(* ================================================================== *)
(** * Properties *)

Unset Implicit Arguments.

(** ** Lists, blocks and masks *)

Section ListFacts.

Context {A B C : Type}.

Lemma zip_with_length (f : A -> B -> C) l1 l2 :
  length (zip_with f l1 l2) = Nat.min (length l1) (length l2).
Proof.
  revert l2; induction l1 as [|a l1 IH]; intros [|b l2]; simpl; auto.
Qed.

Lemma zip_with_nth (f : A -> B -> C) l1 l2 i da db dc :
  i < length l1 -> i < length l2 ->
  nth i (zip_with f l1 l2) dc = f (nth i l1 da) (nth i l2 db).
Proof.
  revert l2 i; induction l1 as [|a l1 IH]; intros [|b l2] [|i]; simpl;
    intros H1 H2; try lia; auto.
  apply IH; lia.
Qed.

Lemma chunks_length n w (l : list A) : length (chunks n w l) = n.
Proof.
  revert l; induction n; intros l; simpl; auto.
Qed.

Lemma chunks_nth n w (l : list A) r :
  r < n -> nth r (chunks n w l) [] = firstn w (skipn (r * w) l).
Proof.
  revert l r; induction n as [|n IH]; intros l [|r] Hr; simpl; try lia; auto.
  rewrite IH by lia. now rewrite skipn_skipn, Nat.add_comm.
Qed.

Lemma chunks_Forall_length n w (l : list A) :
  n * w <= length l -> Forall (fun row => length row = w) (chunks n w l).
Proof.
  revert l; induction n as [|n IH]; intros l Hl; simpl; constructor.
  - rewrite length_firstn. simpl in Hl. lia.
  - apply IH. rewrite length_skipn. simpl in Hl. lia.
Qed.

Lemma chunks_concat n w (l : list A) :
  length l = n * w -> concat (chunks n w l) = l.
Proof.
  revert l; induction n as [|n IH]; intros l Hl; simpl in *.
  - destruct l; simpl in *; auto; lia.
  - rewrite IH.
    + apply firstn_skipn.
    + rewrite length_skipn. lia.
Qed.

Lemma chunks_of_concat w (ls : list (list A)) :
  Forall (fun row => length row = w) ls ->
  chunks (length ls) w (concat ls) = ls.
Proof.
  induction 1 as [|row ls Hrow _ IH]; simpl; auto.
  rewrite firstn_app, skipn_app, Hrow, Nat.sub_diag, firstn_all2, skipn_all2 by lia.
  simpl. rewrite app_nil_r. now rewrite IH.
Qed.

Lemma firstn_skipn_nth w s (l : list A) k d :
  k < w -> nth k (firstn w (skipn s l)) d = nth (s + k) l d.
Proof.
  intros Hk. rewrite nth_firstn.
  destruct (Nat.ltb_spec k w); try lia.
  now rewrite nth_skipn.
Qed.

Lemma concat_nth_block w (ls : list (list A)) r k d :
  Forall (fun row => length row = w) ls ->
  k < w ->
  nth (r * w + k) (concat ls) d = nth k (nth r ls []) d.
Proof.
  intros H; revert r; induction H as [|row ls Hrow _ IH]; intros r Hk.
  - simpl. destruct (r * w + k); destruct r; destruct k; reflexivity.
  - destruct r as [|r]; simpl.
    + rewrite app_nth1 by lia. reflexivity.
    + rewrite app_nth2 by lia.
      replace (w + r * w + k - length row) with (r * w + k) by lia.
      now apply IH.
Qed.

Lemma concat_length_blocks w (ls : list (list A)) :
  Forall (fun row => length row = w) ls ->
  length (concat ls) = length ls * w.
Proof.
  induction 1 as [|row ls Hrow _ IH]; simpl; auto.
  rewrite length_app. lia.
Qed.

Lemma mask_select_map (f : A -> B) mask (l : list A) :
  mask_select mask (map f l) = map f (mask_select mask l).
Proof.
  revert l; induction mask as [|m mask IH]; intros [|a l]; simpl; auto.
  destruct m; simpl; now rewrite IH.
Qed.

Lemma mask_select_seq (keep : nat -> bool) (l : list A) d s :
  mask_select (map keep (seq s (length l))) l
  = map (fun j => nth (j - s) l d) (filter keep (seq s (length l))).
Proof.
  revert s; induction l as [|a l IH]; intros s; simpl; auto.
  destruct (keep s); simpl; rewrite IH.
  - rewrite Nat.sub_diag. f_equal.
    apply map_ext_in. intros j Hj.
    apply filter_In in Hj. destruct Hj as [Hj _]. apply in_seq in Hj.
    destruct (j - s) as [|n] eqn:E; try lia.
    f_equal. lia.
  - apply map_ext_in. intros j Hj.
    apply filter_In in Hj. destruct Hj as [Hj _]. apply in_seq in Hj.
    destruct (j - s) as [|n] eqn:E; try lia.
    f_equal. lia.
Qed.

Lemma mask_select_all (l : list A) :
  mask_select (repeat true (length l)) l = l.
Proof.
  induction l; simpl; congruence.
Qed.

Lemma count_true_map_seq (keep : nat -> bool) s n :
  count_true (map keep (seq s n)) = length (filter keep (seq s n)).
Proof.
  unfold count_true. revert s; induction n as [|n IH]; intros s; simpl; auto.
  destruct (keep s); simpl; now rewrite IH.
Qed.

End ListFacts.

(** ** Shapes and broadcasting *)

Lemma numel_app sh1 sh2 : numel (sh1 ++ sh2) = numel sh1 * numel sh2.
Proof.
  induction sh1 as [|a sh1 IH]; simpl.
  - lia.
  - rewrite IH. lia.
Qed.

Lemma flat_map_const {B : Type} (l : list B) (s n : nat) :
  flat_map (fun _ : nat => l) (seq s n) = concat (repeat l n).
Proof.
  revert s; induction n as [|n IH]; intros s; simpl; auto.
  now rewrite IH.
Qed.

Lemma concat_repeat_repeat {A : Type} (a : A) (x y : nat) :
  concat (repeat (repeat a y) x) = repeat a (x * y).
Proof.
  induction x as [|x IH]; simpl; auto.
  now rewrite IH, repeat_app.
Qed.

Lemma flat_map_chunks {A B : Type} (g : list A -> list B) n w (l : list A) :
  flat_map (fun i => g (firstn w (skipn (i * w) l))) (seq 0 n)
  = flat_map g (chunks n w l).
Proof.
  rewrite !flat_map_concat_map. f_equal.
  apply nth_ext with (d := []) (d' := []).
  - now rewrite !length_map, length_seq, chunks_length.
  - intros i Hi. rewrite length_map, length_seq in Hi.
    rewrite nth_indep with (d' := g (firstn w (skipn (0 * w) l)))
      by now rewrite length_map, length_seq.
    rewrite (map_nth (fun i => g (firstn w (skipn (i * w) l))) (seq 0 n) 0 i).
    rewrite seq_nth by lia. simpl.
    rewrite nth_indep with (d' := g []) by now rewrite length_map, chunks_length.
    rewrite map_nth. now rewrite chunks_nth.
Qed.

Lemma concat_flat_map {A B : Type} (g : A -> list B) (ls : list (list A)) :
  flat_map (fun row => concat (map g row)) ls = concat (map g (concat ls)).
Proof.
  induction ls as [|row ls IH]; simpl; auto.
  now rewrite IH, map_app, concat_app.
Qed.

(** An operand whose two trailing axes have size 1 is repeated over the
    trailing axes of the target, entry by entry. *)
Lemma expand_trailing_ones {A : Type} (pre : list nat) (x y : nat) (d : list A) :
  length d = numel pre ->
  expand (pre ++ [1; 1]) (pre ++ [x; y]) d
  = concat (map (fun a => repeat a (x * y)) d).
Proof.
  revert d; induction pre as [|s pre IH]; intros d Hd.
  - destruct d as [|a [|b d]]; simpl in Hd; try discriminate.
    simpl. rewrite flat_map_const.
    replace (flat_map (fun _ : nat => [a]) (seq 0 y)) with (repeat a y).
    + rewrite concat_repeat_repeat. now rewrite app_nil_r.
    + rewrite flat_map_const. clear. induction y; simpl; congruence.
  - cbn [app expand].
    assert (Hblk : numel (pre ++ [1; 1]) = numel pre)
      by (rewrite numel_app; simpl; lia).
    rewrite Hblk. simpl in Hd.
    destruct (Nat.eqb_spec s 1) as [->|Hs].
    + simpl. rewrite app_nil_r, IH.
      * rewrite firstn_all2 by lia. reflexivity.
      * rewrite length_firstn. lia.
    + rewrite (flat_map_chunks
                 (fun c => expand (pre ++ [1; 1]) (pre ++ [x; y]) c) s (numel pre) d).
      rewrite flat_map_concat_map.
      rewrite map_ext_in with (g := fun c => concat (map (fun a => repeat a (x * y)) c)).
      * rewrite <- flat_map_concat_map, concat_flat_map.
        now rewrite chunks_concat by lia.
      * intros c Hc. apply IH.
        pose proof (chunks_Forall_length s (numel pre) d ltac:(lia)) as HF.
        rewrite Forall_forall in HF. now apply HF.
Qed.

Lemma concat_repeat_nth {A : Type} (n : nat) (d : list A) (i : nat) (dflt : A) :
  i < length d * n ->
  nth i (concat (map (fun a => repeat a n) d)) dflt = nth (i / n) d dflt.
Proof.
  intros Hi.
  assert (Hn : n <> 0) by lia.
  pose proof (Nat.div_mod_eq i n) as Hdm.
  pose proof (Nat.mod_upper_bound i n Hn) as Hm.
  assert (Hq : i / n < length d).
  { apply Nat.Div0.div_lt_upper_bound. lia. }
  replace i with (i / n * n + i mod n) at 1 by lia.
  rewrite concat_nth_block with (w := n); auto.
  - rewrite nth_indep with (d' := repeat dflt n) by now rewrite length_map.
    rewrite (map_nth (fun a => repeat a n)).
    apply nth_repeat_lt. exact Hm.
  - rewrite Forall_map. apply Forall_forall. intros a _. apply repeat_length.
Qed.

(** ** Boolean-mask indexing along axis 1 *)

Lemma chunks_singletons {A : Type} (row : list A) :
  chunks (length row) 1 row = map (fun a => [a]) row.
Proof.
  induction row as [|a row IH]; simpl; auto.
  now rewrite IH.
Qed.

Lemma concat_singletons {A : Type} (l : list A) :
  concat (map (fun a => [a]) l) = l.
Proof.
  induction l; simpl; congruence.
Qed.

Lemma col_mask_of_seq (t : tensor Z) :
  col_mask_of t
  = map (fun j => negb (col_sum (rows_of t) j =? 0)%Z) (seq 0 (nth 1 (shape t) 0)).
Proof.
  unfold col_mask_of, sum_dim0. now rewrite map_map.
Qed.

Lemma kept_columns_spec (t : tensor Z) (j : nat) :
  In j (kept_columns t)
  <-> j < nth 1 (shape t) 0 /\ col_sum (rows_of t) j <> 0%Z.
Proof.
  unfold kept_columns. rewrite filter_In, in_seq, negb_true_iff, Z.eqb_neq. lia.
Qed.

Lemma kept_columns_nth_lt (t : tensor Z) (k : nat) :
  k < length (kept_columns t) ->
  nth k (kept_columns t) 0 < nth 1 (shape t) 0
  /\ col_sum (rows_of t) (nth k (kept_columns t) 0) <> 0%Z.
Proof.
  intros Hk. apply kept_columns_spec. now apply nth_In.
Qed.

Lemma rows_of_2d {A : Type} (r w : nat) (d : list A) :
  rows_of (mkTensor [r; w] d) = chunks r w d.
Proof.
  unfold rows_of. simpl. now rewrite Nat.mul_1_r.
Qed.

(** Indexing a rank-2 tensor with its own column mask, row by row. *)
Lemma index_cols_2d_data (r w : nat) (d : list Z) (ret : tensor Z) :
  length d = r * w ->
  index_cols (mkTensor [r; w] d) (col_mask_of (mkTensor [r; w] d)) = Ok ret ->
  let kept := kept_columns (mkTensor [r; w] d) in
  shape ret = [r; length kept]
  /\ data ret
     = concat (map (fun row => map (fun j => nth j row 0%Z) kept) (chunks r w d)).
Proof.
  intros Hd H kept.
  rewrite col_mask_of_seq in H. unfold index_cols in H. simpl in H.
  rewrite length_map, length_seq, Nat.eqb_refl in H.
  injection H as <-. simpl. split.
  - now rewrite count_true_map_seq.
  - unfold kept, kept_columns. simpl nth. rewrite !rows_of_2d.
    rewrite flat_map_concat_map. f_equal.
    apply map_ext_in. intros row Hrow.
    assert (Hlen : length row = w).
    { pose proof (chunks_Forall_length r w d ltac:(lia)) as HF.
      rewrite Forall_forall in HF. now apply HF. }
    clear Hrow. subst w.
    rewrite chunks_singletons, mask_select_map, concat_singletons.
    rewrite (mask_select_seq _ row 0%Z 0).
    apply map_ext. intros j. now rewrite Nat.sub_0_r.
Qed.

Lemma index_cols_2d_entry (r w : nat) (d : list Z) (ret : tensor Z) :
  length d = r * w ->
  index_cols (mkTensor [r; w] d) (col_mask_of (mkTensor [r; w] d)) = Ok ret ->
  let kept := kept_columns (mkTensor [r; w] d) in
  forall i k, i < r -> k < length kept ->
    nth (i * length kept + k) (data ret) 0%Z = nth (i * w + nth k kept 0) d 0%Z.
Proof.
  intros Hd H kept i k Hi Hk.
  destruct (index_cols_2d_data r w d ret Hd H) as [_ ->]. fold kept.
  rewrite concat_nth_block; auto.
  - rewrite nth_indep with (d' := map (fun j => nth j [] 0%Z) kept)
      by now rewrite length_map, chunks_length.
    rewrite (map_nth (fun row => map (fun j => nth j row 0%Z) kept)).
    rewrite chunks_nth by exact Hi.
    rewrite nth_indep with (d' := nth 0 (firstn w (skipn (i * w) d)) 0%Z)
      by now rewrite length_map.
    rewrite (map_nth (fun j => nth j (firstn w (skipn (i * w) d)) 0%Z)).
    apply firstn_skipn_nth.
    apply (kept_columns_nth_lt (mkTensor [r; w] d)). exact Hk.
  - rewrite Forall_map. apply Forall_forall. intros row _. apply length_map.
Qed.

Lemma col_sum_map (g : list Z -> list Z) (rows : list (list Z)) (k j : nat) :
  (forall row, In row rows -> nth k (g row) 0%Z = nth j row 0%Z) ->
  col_sum (map g rows) k = col_sum rows j.
Proof.
  unfold col_sum. intros H. generalize 0%Z at 2 4. revert H.
  induction rows as [|row rows IH]; intros H acc; simpl; auto.
  rewrite H by now left. apply IH. intros row' Hrow'. apply H. now right.
Qed.

(** The column sums of the compacted tensor are the non-zero column sums
    of the tensor it was compacted from. *)
Lemma index_cols_2d_col_sum (r w : nat) (d : list Z) (ret : tensor Z) :
  length d = r * w ->
  index_cols (mkTensor [r; w] d) (col_mask_of (mkTensor [r; w] d)) = Ok ret ->
  let kept := kept_columns (mkTensor [r; w] d) in
  forall k, k < length kept ->
    col_sum (rows_of ret) k = col_sum (chunks r w d) (nth k kept 0).
Proof.
  intros Hd H kept k Hk.
  destruct (index_cols_2d_data r w d ret Hd H) as [Hs Hdata]. fold kept in Hs, Hdata.
  destruct ret as [rsh rd]. simpl in Hs, Hdata. subst rsh rd.
  rewrite rows_of_2d.
  pose proof (chunks_of_concat (length kept)
                (map (fun row => map (fun j => nth j row 0%Z) kept) (chunks r w d))) as Hc.
  rewrite length_map, chunks_length in Hc. rewrite Hc.
  - apply col_sum_map. intros row _.
    rewrite nth_indep with (d' := nth 0 row 0%Z) by now rewrite length_map.
    now rewrite (map_nth (fun j => nth j row 0%Z)).
  - rewrite Forall_map. apply Forall_forall. intros row _. apply length_map.
Qed.

(** ** flatten_embedding, step by step *)

Lemma bind_inv {A B : Type} (r : result A) (k : A -> result B) (b : B) :
  bind r k = Ok b -> exists a, r = Ok a /\ k a = Ok b.
Proof.
  destruct r as [a|e]; simpl; intros H; [eauto | discriminate].
Qed.

Lemma last_app_two (pre : list nat) (x y d : nat) : last (pre ++ [x; y]) d = y.
Proof.
  induction pre as [|a pre IH]; simpl; auto.
  rewrite IH. destruct (pre ++ [x; y]) eqn:E; auto.
  destruct pre; discriminate.
Qed.

Lemma broadcast_trailing_ones (pre : list nat) (x y : nat) (d : list Z) :
  length d = numel pre ->
  broadcast_to (mkTensor (pre ++ [1; 1]) d) (pre ++ [x; y])
  = Ok (mkTensor (pre ++ [x; y]) (concat (map (fun a => repeat a (x * y)) d))).
Proof.
  intros Hd. unfold broadcast_to, pad_shape. simpl shape. simpl data.
  rewrite !length_app. simpl length. rewrite Nat.sub_diag, Nat.leb_refl. simpl repeat.
  simpl app at 1.
  assert (Hx : expandable (pre ++ [1; 1]) (pre ++ [x; y]) = true).
  { clear. induction pre as [|a pre IH]; simpl.
    - now rewrite !orb_true_r.
    - now rewrite Nat.eqb_refl, IH. }
  rewrite Hx. simpl. now rewrite expand_trailing_ones.
Qed.

(** What a successful call has computed: the shape of the argument ends in
    [x; y]; the argument is left with the offset added to its non-zero
    entries; the first result is the column selection of its rows and the
    second one the same selection of the rows of [edge]. *)
Lemma flatten_embedding_inv {E : Type} (emb br : tensor Z) (edge : option (tensor E))
    (after ret : tensor Z) (oe : option (tensor E)) :
  wf_tensor br ->
  flatten_embedding emb br edge = Ok (after, ret, oe) ->
  exists pre x y,
    shape emb = pre ++ [x; y]
    /\ (length pre = 1 \/ length pre = 2)
    /\ numel pre = length (data br)
    /\ y <> 0
    /\ after
       = mkTensor (shape emb)
           (zip_with (fun e (m : bool) => if m then 0%Z else e)
              (zip_with add64 (data emb)
                 (concat (map (fun a => repeat a (x * y))
                            (map (fun b => mul64 b (Z.of_nat y)) (data br)))))
              (map (fun e => (e =? 0)%Z) (data emb)))
    /\ index_cols (mkTensor [numel (shape emb) / y; y] (data after))
         (col_mask_of (mkTensor [numel (shape emb) / y; y] (data after))) = Ok ret
    /\ match edge with
       | None => oe = None
       | Some e =>
           exists e1 e2,
             reshape_rows e (skipn 2 (shape e)) = Ok e1
             /\ 3 <= length (shape e1)
             /\ index_cols e1
                  (col_mask_of (mkTensor [numel (shape emb) / y; y] (data after)))
                = Ok e2
             /\ oe = Some e2
       end.
Proof.
  intros Hbr H. unfold flatten_embedding in H.
  apply bind_inv in H. destruct H as (addon & Hview & H).
  assert (Hpre : exists pre x y,
             shape emb = pre ++ [x; y] /\ (length pre = 1 \/ length pre = 2)
             /\ numel pre = length (data br)
             /\ addon = mkTensor (pre ++ [1; 1])
                          (map (fun b => mul64 b (Z.of_nat y)) (data br))).
  { destruct (shape emb) as [|a [|b [|c [|d [|]]]]]; try discriminate.
    - exists [a], b, c. unfold view in Hview. simpl in Hview.
      destruct (Nat.eqb_spec (a * 1) (numel (shape br))); try discriminate.
      injection Hview as <-. repeat split; auto. simpl. rewrite Hbr. lia.
    - exists [a; b], c, d. unfold view in Hview. simpl in Hview.
      destruct (Nat.eqb_spec (a * (b * 1)) (numel (shape br))); try discriminate.
      injection Hview as <-. repeat split; auto. simpl. rewrite Hbr. lia. }
  destruct Hpre as (pre & x & y & Hshape & Hlen & Hnum & ->).
  exists pre, x, y.
  apply bind_inv in H. destruct H as (emb1 & Hadd & H).
  unfold binop_inplace in Hadd. rewrite Hshape in Hadd.
  rewrite broadcast_trailing_ones in Hadd by now rewrite length_map.
  simpl in Hadd. injection Hadd as <-.
  apply bind_inv in H. destruct H as (flat & Hflat & H).
  unfold reshape_rows, masked_fill in Hflat. simpl in Hflat.
  rewrite last_app_two in Hflat. simpl in Hflat. rewrite Nat.mul_1_r in Hflat.
  destruct (Nat.eqb_spec y 0) as [|Hy]; try discriminate.
  destruct (numel (pre ++ [x; y]) mod y =? 0); try discriminate.
  injection Hflat as <-.
  apply bind_inv in H. destruct H as (ret0 & Hret & H).
  rewrite Hshape. unfold masked_fill in *. simpl in *.
  assert (Hedge : ret0 = ret /\
            (mkTensor (pre ++ [x; y])
               (zip_with (fun e (m : bool) => if m then 0%Z else e)
                  (zip_with add64 (data emb)
                     (concat (map (fun a => repeat a (x * y))
                                (map (fun b => mul64 b (Z.of_nat y)) (data br)))))
                  (map (fun e => (e =? 0)%Z) (data emb)))) = after
            /\ match edge with
               | None => oe = None
               | Some e =>
                   exists e1 e2,
                     reshape_rows e (skipn 2 (shape e)) = Ok e1
                     /\ 3 <= length (shape e1)
                     /\ index_cols e1
                          (col_mask_of
                             (mkTensor [numel (pre ++ [x; y]) / y; y]
                                (zip_with (fun e (m : bool) => if m then 0%Z else e)
                                   (zip_with add64 (data emb)
                                      (concat (map (fun a => repeat a (x * y))
                                                 (map (fun b => mul64 b (Z.of_nat y))
                                                    (data br)))))
                                   (map (fun e => (e =? 0)%Z) (data emb)))))
                        = Ok e2
                     /\ oe = Some e2
               end).
  { destruct edge as [e|].
    - apply bind_inv in H. destruct H as (e1 & He1 & H).
      apply bind_inv in H. destruct H as (e2 & He2 & H).
      injection H as <- <- <-. repeat split; auto.
      exists e1, e2. repeat split; auto.
      + destruct (shape e1) as [|? [|? [|? ?]]]; try discriminate. simpl. lia.
      + destruct (shape e1) as [|? [|? [|? ?]]]; try discriminate. exact He2.
    - injection H as <- <- <-. auto. }
  destruct Hedge as (-> & <- & Hedge). simpl.
  repeat split; auto.
Qed.

Lemma flatten_embedding_after_length (pre : list nat) (x y : nat) (d br : list Z) :
  length d = numel (pre ++ [x; y]) ->
  numel pre = length br ->
  length
    (zip_with (fun e (m : bool) => if m then 0%Z else e)
       (zip_with add64 d
          (concat (map (fun a => repeat a (x * y))
                     (map (fun b => mul64 b (Z.of_nat y)) br))))
       (map (fun e => (e =? 0)%Z) d))
  = numel pre * x * y.
Proof.
  intros Hd Hbr.
  rewrite !zip_with_length, length_map.
  rewrite concat_length_blocks with (w := x * y).
  - rewrite !length_map. rewrite Hd, numel_app. simpl. nia.
  - rewrite Forall_map. apply Forall_forall. intros a _. apply repeat_length.
Qed.

Lemma numel_div_last (pre : list nat) (x y : nat) :
  y <> 0 -> numel (pre ++ [x; y]) / y = numel pre * x.
Proof.
  intros Hy. rewrite numel_app. simpl.
  replace (numel pre * (x * (y * 1))) with (numel pre * x * y) by lia.
  now apply Nat.div_mul.
Qed.

(** int64 arithmetic is exact as long as the results fit. *)
Lemma wrap64_exact (z : Z) : in_int64 z -> wrap64 z = z.
Proof.
  unfold in_int64, wrap64. intros Hz.
  rewrite Z.mod_small by lia. lia.
Qed.

Lemma add64_mul64_exact (e b y : Z) :
  in_int64 (b * y)%Z -> in_int64 (e + b * y)%Z -> add64 e (mul64 b y) = (e + b * y)%Z.
Proof.
  intros Hby Hsum. unfold add64, mul64.
  rewrite (wrap64_exact _ Hby). now apply wrap64_exact.
Qed.

Lemma arange_nth (n b : nat) : b < n -> nth b (data (arange n)) 0%Z = Z.of_nat b.
Proof.
  intros Hb. unfold arange. simpl.
  rewrite nth_indep with (d' := Z.of_nat 0) by now rewrite length_map, length_seq.
  rewrite map_nth. now rewrite seq_nth.
Qed.

(** The entries that the call leaves in its argument. *)
Lemma flatten_embedding_after_entry {E : Type} (pre : list nat) (x y : nat)
    (d : list Z) (br : tensor Z) (edge : option (tensor E))
    (after ret : tensor Z) (oe : option (tensor E)) (i : nat) :
  length d = numel (pre ++ [x; y]) ->
  wf_tensor br ->
  flatten_embedding (mkTensor (pre ++ [x; y]) d) br edge = Ok (after, ret, oe) ->
  i < length d ->
  nth i (data after) 0%Z
  = if (nth i d 0 =? 0)%Z then 0%Z
    else add64 (nth i d 0%Z)
               (mul64 (nth (i / (x * y)) (data br) 0%Z) (Z.of_nat y)).
Proof.
  intros Hd Hbr H Hi.
  destruct (flatten_embedding_inv _ _ _ _ _ _ Hbr H)
    as (pre' & x' & y' & Hshape & _ & Hnum & Hy & -> & _).
  simpl in Hshape.
  assert (Hsame : pre' = pre /\ x' = x /\ y' = y).
  { apply (f_equal (@rev nat)) in Hshape. rewrite !rev_app_distr in Hshape.
    simpl in Hshape. injection Hshape as -> -> Hrev.
    apply (f_equal (@rev nat)) in Hrev. rewrite !rev_involutive in Hrev. auto. }
  destruct Hsame as (-> & -> & ->). simpl.
  assert (Hxy : length d = length (data br) * (x * y)).
  { rewrite Hd, numel_app. simpl. nia. }
  assert (Hblocks : Forall (fun row => length row = x * y)
                      (map (fun a => repeat a (x * y))
                         (map (fun b => mul64 b (Z.of_nat y)) (data br)))).
  { rewrite Forall_map. apply Forall_forall. intros a _. apply repeat_length. }
  assert (Hlen : length (concat (map (fun a => repeat a (x * y))
                   (map (fun b => mul64 b (Z.of_nat y)) (data br)))) = length d).
  { rewrite (concat_length_blocks _ _ Hblocks), !length_map. lia. }
  rewrite zip_with_nth with (da := 0%Z) (db := false).
  - rewrite nth_indep with (d' := (0 =? 0)%Z) (l := map _ d) by now rewrite length_map.
    rewrite (map_nth (fun e => (e =? 0)%Z)).
    destruct (nth i d 0 =? 0)%Z; auto.
    rewrite zip_with_nth with (da := 0%Z) (db := 0%Z) by lia.
    f_equal. rewrite concat_repeat_nth by (rewrite length_map; lia).
    rewrite nth_indep with (d' := mul64 0 (Z.of_nat y)).
    + now rewrite (map_nth (fun b => mul64 b (Z.of_nat y))).
    + rewrite length_map. apply Nat.Div0.div_lt_upper_bound. lia.
  - rewrite zip_with_length. lia.
  - now rewrite length_map.
Qed.

(** The shape and the entries of the first result. *)
Lemma flatten_embedding_ret {E : Type} (pre : list nat) (x y : nat)
    (d : list Z) (br : tensor Z) (edge : option (tensor E))
    (after ret : tensor Z) (oe : option (tensor E)) :
  length d = numel (pre ++ [x; y]) ->
  wf_tensor br ->
  flatten_embedding (mkTensor (pre ++ [x; y]) d) br edge = Ok (after, ret, oe) ->
  let rows := numel pre * x in
  let flat := mkTensor [rows; y] (data after) in
  y <> 0
  /\ length (data after) = rows * y
  /\ index_cols flat (col_mask_of flat) = Ok ret
  /\ match edge with
     | None => oe = None
     | Some e =>
         exists e1 e2,
           reshape_rows e (skipn 2 (shape e)) = Ok e1
           /\ 3 <= length (shape e1)
           /\ index_cols e1 (col_mask_of flat) = Ok e2
           /\ oe = Some e2
     end.
Proof.
  intros Hd Hbr H rows flat.
  destruct (flatten_embedding_inv _ _ _ _ _ _ Hbr H)
    as (pre' & x' & y' & Hshape & _ & Hnum & Hy & Hafter & Hret & Hedge).
  simpl in Hshape.
  assert (Hsame : pre' = pre /\ x' = x /\ y' = y).
  { apply (f_equal (@rev nat)) in Hshape. rewrite !rev_app_distr in Hshape.
    simpl in Hshape. injection Hshape as -> -> Hrev.
    apply (f_equal (@rev nat)) in Hrev. rewrite !rev_involutive in Hrev. auto. }
  destruct Hsame as (-> & -> & ->).
  simpl shape in Hret, Hedge. rewrite numel_div_last in Hret, Hedge by exact Hy.
  repeat split; auto.
  rewrite Hafter. simpl. now apply flatten_embedding_after_length.
Qed.

(** C4.  For every adjacency array on which [flatten_embedding] returns:
    an entry that is 0 before the call is 0 afterwards, and any other entry
    has the offset of its batch element (the entry of [batch_range] for
    that element, times [y_cnt], in int64 arithmetic) added to it, nothing
    else.  This holds for the array as the call leaves it, whose rows are
    the rows of the flattened array, and for every entry of the returned
    array, which is the entry of one of the kept columns. *)
Theorem flatten_embedding_offset {E : Type} (pre : list nat) (x_cnt y_cnt : nat)
    (d : list Z) (batch_range : tensor Z) (edge : option (tensor E))
    (after ret : tensor Z) (oe : option (tensor E)) :
  length d = numel (pre ++ [x_cnt; y_cnt]) ->
  wf_tensor batch_range ->
  flatten_embedding (mkTensor (pre ++ [x_cnt; y_cnt]) d) batch_range edge
  = Ok (after, ret, oe) ->
  let offset i := mul64 (nth (i / (x_cnt * y_cnt)) (data batch_range) 0%Z)
                        (Z.of_nat y_cnt) in
  let expected i :=
    if (nth i d 0 =? 0)%Z then 0%Z else add64 (nth i d 0%Z) (offset i) in
  let rows := numel pre * x_cnt in
  let kept := kept_columns (mkTensor [rows; y_cnt] (data after)) in
  (forall i, i < length d -> nth i (data after) 0%Z = expected i)
  /\ (forall i, i < length d -> nth i d 0%Z <> 0%Z ->
        let batch_index := nth (i / (x_cnt * y_cnt)) (data batch_range) 0%Z in
        in_int64 (batch_index * Z.of_nat y_cnt)%Z ->
        in_int64 (nth i d 0 + batch_index * Z.of_nat y_cnt)%Z ->
        nth i (data after) 0%Z = (nth i d 0 + batch_index * Z.of_nat y_cnt)%Z)
  /\ shape ret = [rows; length kept]
  /\ (forall r k, r < rows -> k < length kept ->
        nth (r * length kept + k) (data ret) 0%Z
        = expected (r * y_cnt + nth k kept 0)).
Proof.
  intros Hd Hbr H offset expected rows kept.
  destruct (flatten_embedding_ret _ _ _ _ _ _ _ _ _ Hd Hbr H) as (Hy & Hlen & Hret & _).
  fold rows in Hlen, Hret.
  assert (Hentry : forall i, i < length d -> nth i (data after) 0%Z = expected i).
  { intros i Hi. apply (flatten_embedding_after_entry _ _ _ _ _ _ _ _ _ _ Hd Hbr H Hi). }
  split; [exact Hentry|].
  split.
  { intros i Hi Hnz batch_index Hoff Hsum.
    rewrite (Hentry i Hi). unfold expected, offset. fold batch_index.
    apply Z.eqb_neq in Hnz. rewrite Hnz.
    now apply add64_mul64_exact. }
  destruct (index_cols_2d_data _ _ _ _ Hlen Hret) as [Hs _].
  split; [exact Hs|].
  intros r k Hr Hk.
  rewrite (index_cols_2d_entry _ _ _ _ Hlen Hret) by assumption.
  apply Hentry.
  pose proof (kept_columns_nth_lt (mkTensor [rows; y_cnt] (data after)) k Hk) as [Hlt _].
  simpl in Hlt. fold kept in Hlt.
  rewrite Hd, numel_app. simpl. unfold rows in Hr. nia.
Qed.

Lemma flatten_embedding_offset_witness :
  (forall i, i < 8 ->
     nth i [1; 0; 0; 0; 3; 0; 4; 0]%Z 0%Z
     = if (nth i (data sample_adjacency) 0 =? 0)%Z then 0%Z
       else add64 (nth i (data sample_adjacency) 0%Z)
                  (mul64 (nth (i / (2 * 2)) (data (arange 2)) 0%Z) 2))
  /\ shape (snd (fst sample_flattened)) = [4; 1].
Proof.
  pose proof (@flatten_embedding_offset Q [2] 2 2 (data sample_adjacency) (arange 2)
                (Some sample_edges) (fst (fst sample_flattened))
                (snd (fst sample_flattened)) (snd sample_flattened)
                eq_refl eq_refl eq_refl) as H.
  split; [exact (proj1 H) | exact (proj1 (proj2 (proj2 H)))].
Defined.

(** The same on the rank-3 path as [union] takes it, in coordinates: with
    [batch_range = arange(batch)] and no overflow, entry (b, x, y) is 0 if
    it was 0 and has [b * y_cnt] added otherwise. *)
Lemma flatten_embedding_rank3_entry {E : Type} (batch x_cnt y_cnt : nat)
    (d : list Z) (edge : option (tensor E))
    (after ret : tensor Z) (oe : option (tensor E)) (b x y : nat) :
  length d = batch * x_cnt * y_cnt ->
  flatten_embedding (mkTensor [batch; x_cnt; y_cnt] d) (arange batch) edge
  = Ok (after, ret, oe) ->
  b < batch -> x < x_cnt -> y < y_cnt ->
  let i := (b * x_cnt + x) * y_cnt + y in
  in_int64 (Z.of_nat b * Z.of_nat y_cnt)%Z ->
  in_int64 (nth i d 0 + Z.of_nat b * Z.of_nat y_cnt)%Z ->
  nth i (data after) 0%Z
  = if (nth i d 0 =? 0)%Z then 0%Z
    else (nth i d 0 + Z.of_nat b * Z.of_nat y_cnt)%Z.
Proof.
  intros Hd H Hb Hx Hy i Hoff Hsum.
  assert (Hd' : length d = numel ([batch] ++ [x_cnt; y_cnt])) by (simpl; lia).
  assert (Hbr : wf_tensor (arange batch)).
  { unfold wf_tensor, arange. simpl. rewrite length_map, length_seq. lia. }
  assert (Hrow : b * x_cnt + x < batch * x_cnt) by nia.
  assert (Hcol : x * y_cnt + y < x_cnt * y_cnt) by nia.
  assert (Hi : i < length d) by (rewrite Hd; unfold i; nia).
  rewrite (flatten_embedding_after_entry [batch] x_cnt y_cnt d (arange batch) edge
             after ret oe i Hd' Hbr H Hi).
  assert (Hq : i / (x_cnt * y_cnt) = b).
  { symmetry. apply Nat.div_unique with (r := x * y_cnt + y); unfold i; nia. }
  rewrite Hq, (arange_nth batch b Hb).
  destruct (nth i d 0 =? 0)%Z; auto.
  now apply add64_mul64_exact.
Qed.

Lemma index_cols_all_true (r m : nat) (d : list Z) :
  length d = r * m ->
  index_cols (mkTensor [r; m] d) (repeat true m) = Ok (mkTensor [r; m] d).
Proof.
  intros Hd. unfold index_cols. simpl shape.
  rewrite repeat_length, Nat.eqb_refl.
  f_equal. f_equal.
  - f_equal. f_equal. unfold count_true.
    clear. induction m; simpl; congruence.
  - rewrite rows_of_2d. simpl data.
    rewrite flat_map_concat_map.
    rewrite map_ext_in with (g := fun row => row).
    + rewrite map_id. now apply chunks_concat.
    + intros row Hrow.
      assert (Hlen : length row = m).
      { pose proof (chunks_Forall_length r m d ltac:(lia)) as HF.
        rewrite Forall_forall in HF. now apply HF. }
      subst m. simpl numel.
      rewrite chunks_singletons, mask_select_map, concat_singletons.
      apply mask_select_all.
Qed.

Lemma nonzero_mask_all_true (l : list Z) :
  Forall (fun s => s <> 0%Z) l ->
  map (fun s => negb (s =? 0)%Z) l = repeat true (length l).
Proof.
  induction 1 as [|s l Hs _ IH]; simpl; auto.
  apply Z.eqb_neq in Hs. now rewrite Hs, IH.
Qed.

(** C8.  The column filter is idempotent on what [flatten_embedding]
    returns: every column of the returned array has a non-zero column sum,
    so its own column mask keeps every column and indexing with that mask
    gives the array back. *)
Theorem flatten_embedding_compaction_idempotent {E : Type}
    (embedding batch_range : tensor Z) (edge : option (tensor E))
    (after ret : tensor Z) (oe : option (tensor E)) :
  wf_tensor embedding ->
  wf_tensor batch_range ->
  flatten_embedding embedding batch_range edge = Ok (after, ret, oe) ->
  Forall (fun s => s <> 0%Z) (sum_dim0 ret)
  /\ col_mask_of ret = repeat true (nth 1 (shape ret) 0)
  /\ index_cols ret (col_mask_of ret) = Ok ret.
Proof.
  intros Hemb Hbr H.
  destruct (flatten_embedding_inv _ _ _ _ _ _ Hbr H)
    as (pre & x & y & Hshape & _ & _ & _ & _ & _ & _).
  destruct embedding as [sh d]. simpl in Hshape. subst sh.
  unfold wf_tensor in Hemb. simpl in Hemb.
  destruct (flatten_embedding_ret _ _ _ _ _ _ _ _ _ Hemb Hbr H)
    as (Hy & Hlen & Hret & _).
  set (rows := numel pre * x) in *.
  set (flat := mkTensor [rows; y] (data after)) in *.
  destruct (index_cols_2d_data _ _ _ _ Hlen Hret) as [Hs Hdata].
  fold flat in Hs, Hdata.
  assert (Hsums : Forall (fun s => s <> 0%Z) (sum_dim0 ret)).
  { unfold sum_dim0. rewrite Hs. simpl nth.
    rewrite Forall_map. apply Forall_forall. intros k Hk.
    apply in_seq in Hk. destruct Hk as [_ Hk]. simpl in Hk.
    rewrite (index_cols_2d_col_sum _ _ _ _ Hlen Hret) by exact Hk.
    fold flat. rewrite <- (rows_of_2d rows y (data after)).
    apply (kept_columns_nth_lt flat). exact Hk. }
  assert (Hmask : col_mask_of ret = repeat true (nth 1 (shape ret) 0)).
  { unfold col_mask_of. rewrite (nonzero_mask_all_true _ Hsums).
    unfold sum_dim0. now rewrite length_map, length_seq. }
  repeat split; auto.
  rewrite Hmask. destruct ret as [rsh rd]. simpl in Hs, Hdata. subst rsh. simpl nth.
  apply index_cols_all_true.
  rewrite Hdata, concat_length_blocks with (w := length (kept_columns flat)).
  - now rewrite length_map, chunks_length.
  - rewrite Forall_map. apply Forall_forall. intros row _. apply length_map.
Qed.

Lemma flatten_embedding_compaction_idempotent_witness :
  index_cols (snd (fst sample_flattened)) (col_mask_of (snd (fst sample_flattened)))
  = Ok (snd (fst sample_flattened)).
Proof.
  exact (proj2 (proj2 (@flatten_embedding_compaction_idempotent Q
                         sample_adjacency (arange 2) (Some sample_edges)
                         (fst (fst sample_flattened)) (snd (fst sample_flattened))
                         (snd sample_flattened) eq_refl eq_refl eq_refl))).
Defined.

(** ** Which calls return *)

Lemma index_cols_own_mask_returns (r w : nat) (d : list Z) :
  exists ret, index_cols (mkTensor [r; w] d) (col_mask_of (mkTensor [r; w] d)) = Ok ret.
Proof.
  unfold index_cols. simpl shape. rewrite col_mask_of_seq. simpl nth.
  rewrite length_map, length_seq, Nat.eqb_refl. eauto.
Qed.

(** On the rank-3 path the call returns whenever the batch range has one
    entry per batch element, there is at least one target slot and the edge
    tensor, if any, has the shape of the adjacency followed by feature axes
    of non-zero size. *)
Lemma flatten_embedding_rank3_returns {E : Type} (batch x_cnt y_cnt : nat)
    (d br : list Z) (edge : option (tensor E)) :
  y_cnt <> 0 ->
  match edge with
  | None => True
  | Some e => exists f rest, shape e = batch :: x_cnt :: y_cnt :: f :: rest
                             /\ numel (f :: rest) <> 0
  end ->
  exists after ret oe,
    flatten_embedding (mkTensor [batch; x_cnt; y_cnt] d) (mkTensor [batch] br) edge
    = Ok (after, ret, oe).
Proof.
  intros Hy Hedge. unfold flatten_embedding. simpl shape.
  unfold view. simpl shape. simpl numel. rewrite Nat.eqb_refl. simpl bind.
  unfold binop_inplace. simpl shape.
  unfold broadcast_to, pad_shape. simpl shape. simpl length. simpl app.
  cbn [expandable]. rewrite Nat.eqb_refl, !orb_true_r. cbn [andb orb Nat.leb bind].
  unfold reshape_rows, masked_fill. cbn [shape data last numel fold_right].
  rewrite Nat.mul_1_r.
  destruct (Nat.eqb_spec y_cnt 0) as [|_]; [contradiction|].
  replace (batch * (x_cnt * y_cnt)) with (batch * x_cnt * y_cnt) by lia.
  rewrite Nat.Div0.mod_mul, Nat.div_mul by exact Hy. simpl.
  match goal with
  | |- context [index_cols (mkTensor [?r; ?w] ?dd) _] =>
      destruct (index_cols_own_mask_returns r w dd) as [ret Hret]
  end.
  unfold masked_fill in *. simpl in *. rewrite Hret. simpl.
  destruct edge as [e|].
  - destruct Hedge as (f & rest & Hsh & Hnum).
    rewrite Hsh. simpl skipn.
    assert (Hk : numel (y_cnt :: f :: rest) <> 0) by (simpl in *; nia).
    destruct (Nat.eqb_spec (numel (y_cnt :: f :: rest)) 0) as [|_]; [contradiction|].
    replace (numel (batch :: x_cnt :: y_cnt :: f :: rest))
      with (batch * x_cnt * numel (y_cnt :: f :: rest)) by (simpl; lia).
    rewrite Nat.Div0.mod_mul, Nat.div_mul by exact Hk. simpl bind.
    unfold index_cols at 1. simpl shape.
    rewrite col_mask_of_seq. simpl nth. rewrite length_map, length_seq, Nat.eqb_refl.
    simpl. eauto.
  - eauto.
Qed.

(** C10, amended.  On the rank-4 path, with at least one batch element, a
    batch range with one entry per batch element and more than one time
    step, the call stops at the view of the offsets (a [RuntimeError]),
    whatever the entries and the edge tensor. *)
Theorem flatten_embedding_rank4_fails {E : Type} (seq_len batch x_cnt y_cnt : nat)
    (d br : list Z) (edge : option (tensor E)) :
  1 < seq_len ->
  1 <= batch ->
  flatten_embedding (mkTensor [seq_len; batch; x_cnt; y_cnt] d) (mkTensor [batch] br) edge
  = Err RuntimeError.
Proof.
  intros Hs Hb. unfold flatten_embedding, view. simpl shape. simpl numel. cbv iota.
  match goal with
  | |- context [Nat.eqb ?a ?b] => destruct (Nat.eqb_spec a b) as [Heq|_]
  end.
  - nia.
  - reflexivity.
Qed.

Lemma flatten_embedding_rank4_fails_witness :
  flatten_embedding (mkTensor [2; 1; 1; 1] [1; 1]%Z) (mkTensor [1] [0%Z])
                    (@None (tensor Q))
  = Err RuntimeError.
Proof.
  apply (@flatten_embedding_rank4_fails Q 2 1 1 1); lia.
Defined.

(** C10 as stated fails for an empty batch: with two time steps and no
    batch element the view has no entry to account for, and the call
    returns an empty array. *)
Lemma flatten_embedding_rank4_empty_batch_returns :
  flatten_embedding (mkTensor [2; 0; 1; 1] []) (arange 0) (@None (tensor Q))
  = Ok (mkTensor [2; 0; 1; 1] [], mkTensor [0; 0] [], None).
Proof.
  reflexivity.
Qed.

(** ** Indexing blocks: the edge tensor *)





(** ** union and the caller's state *)

Ltac bind_step H :=
  let x := fresh "x" in
  let Hx := fresh "Hx" in
  apply bind_inv in H; destruct H as (x & Hx & H).

(** When the tensors that [union] builds from [vo] and [po] are copies (the
    arrays are not int64, or the agent's device is not the CPU), the state
    dictionary is left as it was. *)
Lemma union_keeps_state_when_copied (config : GNNBasedActorCriticConfig)
    (dev : device) (state state' : raw_state) (g : batched_graph) :
  shares_memory (dtype (s_vo state)) dev = false ->
  shares_memory (dtype (s_po state)) dev = false ->
  union config dev state = Ok (state', g) ->
  state' = state.
Proof.
  intros Hvo Hpo H. unfold union in H.
  do 8 bind_step H.
  destruct (shape x) as [|? [|? [|? [|? [|]]]]]; try discriminate.
  destruct (shape x0) as [|? [|? [|? [|? [|]]]]]; try discriminate.
  bind_step H. destruct x7 as [vo_after ve].
  bind_step H. destruct x7 as [po_after pe].
  bind_step H.
  bind_step H. destruct x8 as [p2p_after ppe].
  injection H as <- _.
  unfold written_back. rewrite Hvo, Hpo. now destruct state.
Qed.

(** C2, at an input where it fails.  On the CPU, with int64 index arrays
    and two samples in the batch, [union] returns and leaves the offsets of
    the second sample in [state["vo"]] and [state["po"]]; a second call on
    the same dictionary then adds them once more and returns another
    adjacency. *)
Theorem union_writes_into_state :
  exists st1 g1 st2 g2,
    union scenario_config CPU scenario_state = Ok (st1, g1)
    /\ data (arr (s_po scenario_state)) = [1; 1; 1; 1]%Z
    /\ data (arr (s_po st1)) = [1; 1; 2; 2]%Z
    /\ data (arr (s_vo scenario_state)) = [1; 2; 1; 2]%Z
    /\ data (arr (s_vo st1)) = [1; 2; 3; 4]%Z
    /\ union scenario_config CPU st1 = Ok (st2, g2)
    /\ data (adj (g_pe g1)) = [1; 1; 2; 2]%Z
    /\ data (adj (g_pe g2)) = [1; 1; 3; 3]%Z
    /\ g1 <> g2.
Proof.
  do 4 eexists.
  split; [vm_compute; reflexivity|].
  do 4 (split; [reflexivity|]).
  split; [vm_compute; reflexivity|].
  do 2 (split; [reflexivity|]).
  intros Heq. apply (f_equal (fun g => data (adj (g_pe g)))) in Heq.
  discriminate Heq.
Qed.

(** ** The configuration *)

Lemma value_discount_init (p2p : tensor Z) (n : Z) (gamma alc ef : Q) :
  value_discount (GNNBasedActorCriticConfig_init p2p n gamma alc ef)
  = Qpower gamma 100.
Proof.
  reflexivity.
Qed.

Lemma value_discount_default_td_steps (p2p : tensor Z) (gamma alc ef : Q) :
  let c := GNNBasedActorCriticConfig_init p2p default_td_steps gamma alc ef in
  value_discount c = Qpower (reward_discount c) (td_steps c).
Proof.
  reflexivity.
Qed.

(** C1, at an input where it fails.  Constructed with [td_steps = 1] and
    [reward_discount = 1/2], the configuration has
    [value_discount = (1/2)^100], which is not [(1/2)^1]: the exponent is
    the constant 100, not [td_steps]. *)
Theorem value_discount_ignores_td_steps :
  let c := GNNBasedActorCriticConfig_init (mkTensor [2; 2] [0; 1; 1; 0]%Z) 1 (1 # 2)
             default_actor_loss_coefficient default_entropy_factor in
  td_steps c = 1%Z
  /\ reward_discount c = (1 # 2)%Q
  /\ (value_discount c == Qpower (1 # 2) 100)%Q
  /\ ~ (value_discount c == Qpower (reward_discount c) (td_steps c))%Q.
Proof.
  repeat split; try reflexivity.
  intros H. vm_compute in H. discriminate H.
Qed.

(** ** The advantage in learn *)




Lemma expandable_same (sh : list nat) : expandable sh sh = true.
Proof.
  induction sh as [|s sh IH]; simpl; auto.
  now rewrite Nat.eqb_refl, IH.
Qed.

Lemma broadcast_shapes_same (sh : list nat) : broadcast_shapes sh sh = Some sh.
Proof.
  unfold broadcast_shapes, pad_shape. rewrite Nat.max_id, Nat.sub_diag.
  cbn [repeat app].
  induction sh as [|a sh IH]; simpl; auto.
  now rewrite IH, Nat.eqb_refl.
Qed.




Section AgentFacts.

Variable model : Type.
Variable forward :
  model -> batched_graph -> option Z -> option Z ->
  option bool -> option bool -> option bool -> tensor Q * tensor Q.
Variable step : model -> Q -> model * Q.
Variable log_prob : tensor Q -> tensor Z -> tensor Q.
Variable entropy : tensor Q -> tensor Q.
Variable dev : device.



End AgentFacts.

(** ** One sample and a batch of one *)

Lemma expand_dims_rank {A : Type} (t t' : tensor A) (axis : nat) :
  expand_dims t axis = Ok t' -> length (shape t') = S (length (shape t)).
Proof.
  unfold expand_dims.
  destruct (Nat.leb_spec axis (length (shape t))) as [Hle|_]; [|discriminate].
  intros H. injection H as <-. simpl.
  rewrite length_app. simpl. rewrite length_firstn, length_skipn. lia.
Qed.

(** [union] builds the same graph, or stops with the same exception, on a
    sample and on the batch of one that holds it. *)
Lemma union_batch_of_one (config : GNNBasedActorCriticConfig) (dev : device)
    (st sb : raw_state) :
  length (shape (s_p st)) = 3 ->
  batch_of_one st = Ok sb ->
  match union config dev st, union config dev sb with
  | Ok (_, g1), Ok (_, g2) => g1 = g2
  | Err e1, Err e2 => e1 = e2
  | _, _ => False
  end.
Proof.
  intros Hrank H. unfold batch_of_one in H.
  do 8 bind_step H. injection H as <-.
  pose proof (expand_dims_rank _ _ _ Hx0) as Hr. rewrite Hrank in Hr.
  unfold union. cbn [s_v s_p s_vo s_po s_pedge s_vedge s_ppedge s_mask arr dtype
                     s_p_idx s_v_idx].
  rewrite Hrank, Hr. cbn [Nat.eqb].
  rewrite Hx, Hx0, Hx1, Hx2, Hx3, Hx4, Hx5, Hx6. cbn [bind].
  destruct (shape x) as [|? [|? [|? [|? [|]]]]]; auto.
  destruct (shape x0) as [|? [|? [|? [|? [|]]]]]; auto.
  destruct (union_relation x1 _ x4) as [[? ?]|]; cbn [bind]; auto.
  destruct (union_relation x2 _ x3) as [[? ?]|]; cbn [bind]; auto.
  destruct (repeat_leading _ _) as [?|]; cbn [bind]; auto.
  destruct (union_relation _ _ x5) as [[? ?]|]; cbn [bind]; auto.
Qed.

Lemma index0_unsqueeze {A : Type} (t t0 : tensor A) :
  wf_tensor t -> shape t = [1] -> index0 t = Ok t0 -> expand_dims t0 0 = Ok t.
Proof.
  intros Hwf Hs H. destruct t as [sh d]. unfold wf_tensor in Hwf. simpl in *. subst sh.
  unfold index0 in H. simpl in H. injection H as <-.
  unfold expand_dims. simpl.
  destruct d as [|a [|? ?]]; try discriminate. reflexivity.
Qed.

Section ChooseActionFacts.

Variable model : Type.
Variable forward :
  model -> batched_graph -> option Z -> option Z ->
  option bool -> option bool -> option bool -> tensor Q * tensor Q.
Variable rng : Type.
Variable sample : tensor Q -> rng -> tensor Z * rng.
Variable log_prob : tensor Q -> tensor Z -> tensor Q.
Variable config : GNNBasedActorCriticConfig.
Variable dev : device.

(** C9.  On one sample (rank-3 [p]) [choose_action] gives what it gives
    on the batch of one that holds the sample, with the batch axis taken
    off: the model is asked with the same graph and the same port and
    vessel, the same draw is made and the same log-probability taken;
    the batched call returns the arrays and the single call their entry
    0.  When the arrays have one entry per batch element, putting the
    batch axis back on the single result gives the batched result. *)
Theorem choose_action_single_vs_batch (m : model) (st sb : raw_state) (g : rng) :
  length (shape (s_p st)) = 3 ->
  batch_of_one st = Ok sb ->
  match choose_action forward sample log_prob config dev m sb g with
  | Ok (_, (action, log_p), g') =>
      match index0 action, index0 log_p with
      | Ok a0, Ok l0 =>
          (exists st',
              choose_action forward sample log_prob config dev m st g
              = Ok (st', (a0, l0), g'))
          /\ (wf_tensor action -> shape action = [1] ->
              expand_dims a0 0 = Ok action)
          /\ (wf_tensor log_p -> shape log_p = [1] ->
              expand_dims l0 0 = Ok log_p)
      | Err e, _ | Ok _, Err e =>
          choose_action forward sample log_prob config dev m st g = Err e
      end
  | Err e => choose_action forward sample log_prob config dev m st g = Err e
  end.
Proof.
  intros Hrank Hsb.
  pose proof (union_batch_of_one config dev st sb Hrank Hsb) as Hu.
  assert (Hr : length (shape (s_p sb)) = 4).
  { unfold batch_of_one in Hsb. do 8 bind_step Hsb. injection Hsb as <-.
    simpl. rewrite (expand_dims_rank _ _ _ Hx0). now rewrite Hrank. }
  assert (Hidx : s_p_idx sb = s_p_idx st /\ s_v_idx sb = s_v_idx st).
  { unfold batch_of_one in Hsb. do 8 bind_step Hsb. injection Hsb as <-. auto. }
  destruct Hidx as [Hp Hv].
  unfold choose_action. rewrite Hrank, Hr, Hp, Hv. cbn [Nat.eqb].
  destruct (union config dev st) as [[st1 g1]|e1];
    destruct (union config dev sb) as [[sb1 g2]|e2]; try contradiction.
  - subst g2. cbn [bind].
    destruct (sample _ g) as [action g'] eqn:Hs.
    destruct (index0 action) as [a0|ea] eqn:Ha; cbn [bind].
    + destruct (index0 (log_prob _ action)) as [l0|el] eqn:Hl; cbn [bind].
      * split; [eauto|]. split; intros Hwf Hshape.
        -- now apply index0_unsqueeze.
        -- now apply index0_unsqueeze.
      * reflexivity.
    + reflexivity.
  - subst e2. reflexivity.
Qed.

End ChooseActionFacts.

Lemma choose_action_single_vs_batch_witness :
  exists st',
    choose_action sample_forward sample_sample sample_log_prob scenario_config CPU
                  tt single_state 0
    = Ok (st', (mkTensor [] [0%Z], mkTensor [] [(-1)%Q]), 1).
Proof.
  exact (proj1 (@choose_action_single_vs_batch unit sample_forward nat sample_sample
                  sample_log_prob scenario_config CPU tt single_state
                  (mkState (mkTensor [1; 1; 1; 1] [0]%Q) (mkTensor [1; 1; 2; 1] [0; 0]%Q)
                     (mkIntArray Int64 (mkTensor [1; 1; 2] [1; 2]%Z))
                     (mkIntArray Int64 (mkTensor [1; 2; 1] [1; 1]%Z))
                     (mkTensor [1; 2; 1; 1] [0; 0]%Q) (mkTensor [1; 1; 2; 1] [0; 0]%Q)
                     (mkTensor [1; 2; 2; 1] [0; 0; 0; 0]%Q) (mkTensor [1; 1] [1]%Z) 0 0)
                  0 eq_refl eq_refl)).
Defined.

(** ** Checkpoint selection *)

Lemma with_keys_ok (key : string -> result Z) (l : list string) :
  (forall f, In f l -> exists k, key f = Ok k) ->
  exists keyed,
    with_keys key l = Ok keyed
    /\ map snd keyed = l
    /\ Forall (fun kf => key (snd kf) = Ok (fst kf)) keyed.
Proof.
  induction l as [|f l IH]; intros Hall.
  - exists []. repeat split; constructor.
  - destruct (Hall f (or_introl eq_refl)) as [k Hk].
    destruct IH as (keyed & Hw & Hm & HF).
    { intros f' Hf'. apply Hall. now right. }
    exists ((k, f) :: keyed). simpl. rewrite Hk, Hw. simpl.
    repeat split; [now rewrite Hm | constructor; auto].
Qed.

Lemma insert_by_key_perm (x : Z * string) (l : list (Z * string)) :
  Permutation (insert_by_key x l) (x :: l).
Proof.
  induction l as [|y l IH]; simpl; auto.
  destruct (fst x <=? fst y)%Z; auto.
  rewrite IH. apply perm_swap.
Qed.

Lemma insert_by_key_sorted (x : Z * string) (l : list (Z * string)) :
  StronglySorted (fun a b : Z * string => (fst a <= fst b)%Z) l -> StronglySorted (fun a b : Z * string => (fst a <= fst b)%Z) (insert_by_key x l).
Proof.
  induction 1 as [|y l Hl IH Hy]; simpl.
  - repeat constructor.
  - destruct (Z.leb_spec (fst x) (fst y)) as [Hle|Hgt].
    + constructor; [now constructor|].
      constructor; [exact Hle|].
      rewrite Forall_forall in *. intros z Hz. specialize (Hy z Hz). simpl in *. lia.
    + constructor; [exact IH|].
      rewrite Forall_forall in *. intros z Hz.
      apply (Permutation_in _ (insert_by_key_perm x l)) in Hz.
      destruct Hz as [<-|Hz]; [simpl; lia | now apply Hy].
Qed.

Lemma sort_by_insertion_perm (l : list (Z * string)) :
  Permutation (fold_right insert_by_key [] l) l.
Proof.
  induction l as [|x l IH]; simpl; auto.
  rewrite insert_by_key_perm. now constructor.
Qed.

Lemma sort_by_insertion_sorted (l : list (Z * string)) :
  StronglySorted (fun a b : Z * string => (fst a <= fst b)%Z) (fold_right insert_by_key [] l).
Proof.
  induction l as [|x l IH]; simpl.
  - constructor.
  - now apply insert_by_key_sorted.
Qed.

Lemma last_in {A : Type} (l : list A) (d : A) : l <> [] -> In (last l d) l.
Proof.
  induction l as [|a l IH]; intros Hne; [contradiction|].
  destruct l as [|b l]; [now left|].
  right. apply IH. discriminate.
Qed.

Lemma sorted_last_greatest (l : list (Z * string)) (d x : Z * string) :
  StronglySorted (fun a b : Z * string => (fst a <= fst b)%Z) l -> In x l -> (fst x <= fst (last l d))%Z.
Proof.
  induction 1 as [|y l Hl IH Hy]; intros Hx; [contradiction|].
  destruct l as [|z l].
  - destruct Hx as [<-|[]]. simpl. lia.
  - change (last (y :: z :: l) d) with (last (z :: l) d).
    destruct Hx as [<-|Hx].
    + rewrite Forall_forall in Hy. apply Hy. apply last_in. discriminate.
    + now apply IH.
Qed.

Lemma last_of_map {A B : Type} (f : A -> B) (l : list A) (d : A) :
  last (map f l) (f d) = f (last l d).
Proof.
  induction l as [|a l IH]; simpl; auto.
  destruct l as [|b l]; simpl in *; auto.
Qed.

(** The name that is chosen has the greatest leading integer among the
    names that contain "ac", when each of these integers can be read. *)
Lemma latest_checkpoint_greatest (listing : list string) :
  let fps := filter contains_ac listing in
  fps <> [] ->
  (forall f, In f fps -> exists k, _get_save_idx f = Ok k) ->
  exists p k,
    latest_checkpoint listing = Ok p
    /\ In p listing
    /\ contains_ac p = true
    /\ _get_save_idx p = Ok k
    /\ forall f k', In f fps -> _get_save_idx f = Ok k' -> (k' <= k)%Z.
Proof.
  intros fps Hne Hall. unfold latest_checkpoint. fold fps.
  destruct (with_keys_ok _get_save_idx fps Hall) as (keyed & Hw & Hm & HF).
  unfold sort_by_key. rewrite Hw. cbn [bind].
  set (sorted := fold_right insert_by_key [] keyed).
  pose proof (sort_by_insertion_perm keyed) as Hperm. fold sorted in Hperm.
  pose proof (sort_by_insertion_sorted keyed) as Hsorted. fold sorted in Hsorted.
  assert (Hsne : sorted <> []).
  { intros Hs. rewrite Hs in Hperm. apply Permutation_nil in Hperm.
    subst keyed. simpl in Hm. now apply Hne. }
  assert (Hlast : match map snd sorted with
                  | [] => Err IndexError
                  | _ :: _ => Ok (last (map snd sorted) EmptyString)
                  end = Ok (last (map snd sorted) EmptyString)).
  { destruct sorted; [contradiction | reflexivity]. }
  rewrite Hlast. clear Hlast.
  set (top := last sorted (0%Z, EmptyString)).
  assert (Htop : In top keyed).
  { apply (Permutation_in _ Hperm). now apply last_in. }
  exists (snd top), (fst top).
  change EmptyString with (snd (0%Z, EmptyString)).
  rewrite last_of_map. fold top.
  assert (Hin : In (snd top) fps).
  { rewrite <- Hm. now apply in_map. }
  apply filter_In in Hin. destruct Hin as [Hin Hac].
  rewrite Forall_forall in HF.
  repeat split; auto.
  intros f k' Hf Hk'.
  rewrite <- Hm in Hf. apply in_map_iff in Hf. destruct Hf as (kf & <- & Hkf).
  rewrite (HF kf Hkf) in Hk'. injection Hk' as <-.
  apply sorted_last_greatest; [exact Hsorted|].
  now apply (Permutation_in _ (Permutation_sym Hperm)).
Qed.

(** C3, amended.  With [idx = -1], [load_model] keeps the names of the
    folder that contain "ac" and reads the leading integer of each.  When
    no name is kept, the call stops with the [IndexError] of [fps[-1]].
    When some name is kept and the leading integer of every kept name can
    be read, the file it loads is a kept name of the folder whose integer
    is the greatest. *)
Theorem load_model_latest (listdir : string -> result (list string))
    (torch_load : string -> result state_dict) (model_sd : state_dict)
    (folder_pth : string) (listing : list string) :
  listdir folder_pth = Ok listing ->
  let fps := filter contains_ac listing in
  (fps = [] ->
   load_model listdir torch_load model_sd folder_pth (-1) = Err IndexError)
  /\ (fps <> [] ->
      (forall f, In f fps -> exists k, _get_save_idx f = Ok k) ->
      exists p k,
        In p listing
        /\ contains_ac p = true
        /\ _get_save_idx p = Ok k
        /\ (forall f k', In f fps -> _get_save_idx f = Ok k' -> (k' <= k)%Z)
        /\ load_model listdir torch_load model_sd folder_pth (-1)
           = (weights <- torch_load (os_path_join folder_pth p) ;;
              _set_gnn_weights weights model_sd)).
Proof.
  intros Hls fps. unfold load_model. cbn [Z.eqb Z.opp Pos.eqb]. rewrite Hls.
  cbn [bind]. split.
  - intros Hfps. unfold latest_checkpoint. fold fps. rewrite Hfps. reflexivity.
  - intros Hne Hall.
    destruct (latest_checkpoint_greatest listing Hne Hall)
      as (p & k & Hp & Hin & Hac & Hk & Hmax).
    exists p, k. rewrite Hp. cbn [bind]. repeat split; auto.
Qed.

Lemma load_model_latest_witness :
  load_model sample_listdir sample_torch_load sample_state_dict "empty" (-1)
  = Err IndexError
  /\ exists p k,
       In p ["10_ac.pkl"; "9_ac.pkl"; "notes.txt"]%string
       /\ contains_ac p = true
       /\ _get_save_idx p = Ok k
       /\ (forall f k', In f ["10_ac.pkl"; "9_ac.pkl"]%string ->
                        _get_save_idx f = Ok k' -> (k' <= k)%Z)
       /\ load_model sample_listdir sample_torch_load sample_state_dict "ckpt" (-1)
          = (weights <- sample_torch_load (os_path_join "ckpt" p) ;;
             _set_gnn_weights weights sample_state_dict).
Proof.
  split.
  - apply (proj1 (load_model_latest sample_listdir sample_torch_load
                    sample_state_dict "empty" [] eq_refl)).
    reflexivity.
  - apply (proj2 (load_model_latest sample_listdir sample_torch_load
                    sample_state_dict "ckpt"
                    ["10_ac.pkl"; "9_ac.pkl"; "notes.txt"]%string eq_refl)).
    + discriminate.
    + intros f [<-|[<-|[]]]; [exists 10%Z | exists 9%Z]; reflexivity.
Defined.

(** C3 as stated fails on a folder without checkpoint: the exception is
    the [IndexError] of indexing an empty list, for an empty folder and
    for a folder without a matching name. *)
Lemma load_model_empty_folder_index_error :
  load_model sample_listdir sample_torch_load sample_state_dict "empty" (-1)
  = Err IndexError
  /\ load_model (fun _ => Ok ["notes.txt"]%string) sample_torch_load
       sample_state_dict "ckpt" (-1)
     = Err IndexError.
Proof.
  split; reflexivity.
Qed.

(** With checkpoints 9 and 10 in the folder, checkpoint 10 is loaded; the
    key that the model does not have in common is left alone. *)
Lemma load_model_sample_run :
  load_model sample_listdir sample_torch_load sample_state_dict "ckpt" (-1)
  = Ok [("w"%string, mkTensor [1] [10]%Q); ("b"%string, mkTensor [1] [0]%Q)].
Proof.
  reflexivity.
Qed.

(** ** The scenario, run *)




(* ================================================================== *)
(** * Further properties of the batcher *)

(** ** Which inputs flatten_embedding accepts *)

Lemma flatten_embedding_rank_error {E : Type} (embedding batch_range : tensor Z)
    (edge : option (tensor E)) :
  length (shape embedding) <> 3 ->
  length (shape embedding) <> 4 ->
  flatten_embedding embedding batch_range edge = Err ValueError.
Proof.
  intros H3 H4. unfold flatten_embedding.
  destruct (shape embedding) as [|a [|b [|c [|d [|e l]]]]]; simpl in *;
    try reflexivity; lia.
Qed.

Lemma index_cols_rank2 (r w : nat) (d : list Z) (mask : list bool) (ret : tensor Z) :
  index_cols (mkTensor [r; w] d) mask = Ok ret -> length (shape ret) = 2.
Proof.
  unfold index_cols. cbn [shape].
  destruct (w =? length mask); intros H; [|discriminate H].
  injection H as <-. reflexivity.
Qed.

(** The array that [flatten_embedding] returns has rank 2, and the function
    unpacks the shape of anything that is not of rank 3 into four names: a
    second run on its own result stops with a [ValueError], whatever batch
    range and edge tensor go with it. *)
Theorem flatten_embedding_refuses_own_output {E : Type}
    (embedding batch_range : tensor Z) (edge : option (tensor E))
    (after ret : tensor Z) (oe : option (tensor E))
    (batch_range' : tensor Z) (edge' : option (tensor E)) :
  wf_tensor batch_range ->
  flatten_embedding embedding batch_range edge = Ok (after, ret, oe) ->
  flatten_embedding ret batch_range' edge' = Err ValueError.
Proof.
  intros Hbr H.
  destruct (flatten_embedding_inv _ _ _ _ _ _ Hbr H)
    as (pre & x & y & _ & _ & _ & _ & _ & Hret & _).
  apply index_cols_rank2 in Hret.
  apply flatten_embedding_rank_error; lia.
Qed.

Lemma flatten_embedding_refuses_own_output_witness :
  flatten_embedding (snd (fst sample_flattened)) (arange 2) (@None (tensor Q))
  = Err ValueError.
Proof.
  apply (@flatten_embedding_refuses_own_output Q sample_adjacency (arange 2)
           (Some sample_edges) (fst (fst sample_flattened))
           (snd (fst sample_flattened)) (snd sample_flattened)
           (arange 2) None); reflexivity.
Defined.

(** On the rank-3 path, without edge tensor, the call returns exactly when
    the batch range has one entry per batch element and there is at least
    one target slot; otherwise it stops with a [RuntimeError] (at the view
    of the offsets, or at the reshape to zero columns). *)
Theorem flatten_embedding_rank3_returns_iff {E : Type} (batch x_cnt y_cnt : nat)
    (d : list Z) (batch_range : tensor Z) :
  if (numel (shape batch_range) =? batch) && negb (y_cnt =? 0)
  then exists r,
      flatten_embedding (E := E) (mkTensor [batch; x_cnt; y_cnt] d) batch_range None
      = Ok r
  else flatten_embedding (E := E) (mkTensor [batch; x_cnt; y_cnt] d) batch_range None
       = Err RuntimeError.
Proof.
  unfold flatten_embedding. cbn [shape]. unfold view. cbn [shape tmap].
  assert (Hn : numel [batch; 1; 1] = batch) by (simpl; lia).
  rewrite Hn. clear Hn.
  rewrite (Nat.eqb_sym (numel (shape batch_range)) batch).
  destruct (batch =? numel (shape batch_range)); cbn [andb bind]; [|reflexivity].
  unfold binop_inplace. cbn [shape].
  unfold broadcast_to, pad_shape. cbn [shape data length Nat.sub repeat app].
  cbn [expandable]. rewrite Nat.eqb_refl, !orb_true_r. cbn [andb orb Nat.leb bind].
  unfold reshape_rows, masked_fill. cbn [shape data last numel fold_right].
  rewrite Nat.mul_1_r.
  destruct (Nat.eqb_spec y_cnt 0) as [Hy|Hy]; cbn [negb bind]; [reflexivity|].
  replace (batch * (x_cnt * y_cnt)) with (batch * x_cnt * y_cnt) by lia.
  rewrite Nat.Div0.mod_mul, Nat.div_mul by exact Hy. cbn [Nat.eqb bind].
  match goal with
  | |- context [index_cols (mkTensor [?r; ?w] ?dd) _] =>
      destruct (index_cols_own_mask_returns r w dd) as [ret Hret]
  end.
  rewrite Hret. cbn [bind]. eauto.
Qed.

(** ** Degenerate and well-behaved adjacency arrays *)

Lemma chunks_Forall {A : Type} (P : A -> Prop) (n w : nat) (l : list A) :
  Forall P l -> Forall (Forall P) (chunks n w l).
Proof.
  revert l; induction n as [|n IH]; intros l Hl; simpl; constructor.
  - rewrite Forall_forall in *. intros a Ha. apply Hl.
    rewrite <- (firstn_skipn w l). apply in_or_app. now left.
  - apply IH. rewrite Forall_forall in *. intros a Ha. apply Hl.
    rewrite <- (firstn_skipn w l). apply in_or_app. now right.
Qed.

Lemma Forall_nth_default {A : Type} (P : A -> Prop) (l : list A) (d : A) (i : nat) :
  Forall P l -> P d -> P (nth i l d).
Proof.
  intros Hl Hd. destruct (Nat.lt_ge_cases i (length l)) as [Hi|Hi].
  - rewrite Forall_forall in Hl. apply Hl. now apply nth_In.
  - now rewrite nth_overflow.
Qed.

Lemma col_sum_zero (rows : list (list Z)) (j : nat) :
  Forall (Forall (fun e => e = 0%Z)) rows -> col_sum rows j = 0%Z.
Proof.
  unfold col_sum. induction 1 as [|row rows Hrow _ IH]; simpl; auto.
  rewrite (Forall_nth_default (fun e => e = 0%Z) row 0%Z j Hrow eq_refl).
  exact IH.
Qed.

(** An adjacency without any edge comes back untouched, and the returned
    array has all its rows but no column left (and no entry); the edge
    tensor, if any, loses all its columns too. *)
Theorem flatten_embedding_all_zero {E : Type} (pre : list nat) (x_cnt y_cnt : nat)
    (d : list Z) (batch_range : tensor Z) (edge : option (tensor E))
    (after ret : tensor Z) (oe : option (tensor E)) :
  length d = numel (pre ++ [x_cnt; y_cnt]) ->
  wf_tensor batch_range ->
  Forall (fun e => e = 0%Z) d ->
  flatten_embedding (mkTensor (pre ++ [x_cnt; y_cnt]) d) batch_range edge
  = Ok (after, ret, oe) ->
  data after = d
  /\ shape ret = [numel pre * x_cnt; 0]
  /\ data ret = []
  /\ match oe with
     | Some e' => nth 1 (shape e') 1 = 0
     | None => True
     end.
Proof.
  intros Hd Hbr Hz H.
  destruct (flatten_embedding_ret _ _ _ _ _ _ _ _ _ Hd Hbr H)
    as (Hy & Hlen & Hret & Hedge).
  set (rows := numel pre * x_cnt) in *.
  assert (Hafter : data after = d).
  { apply nth_ext with (d := 0%Z) (d' := 0%Z).
    - rewrite Hlen, Hd, numel_app. simpl. unfold rows. lia.
    - intros i Hi.
      assert (Hi' : i < length d).
      { rewrite Hd, numel_app. simpl. rewrite Hlen in Hi. unfold rows in Hi. lia. }
      rewrite (flatten_embedding_after_entry _ _ _ _ _ _ _ _ _ _ Hd Hbr H Hi').
      pose proof (Forall_nth_default (fun e => e = 0%Z) d 0%Z i Hz eq_refl) as He.
      simpl in He. rewrite He. reflexivity. }
  rewrite Hafter in *.
  assert (Hkept : kept_columns (mkTensor [rows; y_cnt] d) = []).
  { unfold kept_columns. rewrite rows_of_2d. simpl nth.
    induction (seq 0 y_cnt) as [|j l IH]; simpl; auto.
    rewrite col_sum_zero by now apply chunks_Forall. simpl. exact IH. }
  destruct (index_cols_2d_data _ _ _ _ Hlen Hret) as [Hs Hdata].
  rewrite Hkept in Hs, Hdata. simpl in Hs, Hdata.
  split; [reflexivity|]. split; [exact Hs|]. split.
  - rewrite Hdata. clear. induction (chunks rows y_cnt d); simpl; auto.
  - destruct edge as [e|]; [|now subst oe].
    destruct Hedge as (e1 & e2 & _ & Hrank & He2 & ->).
    unfold index_cols in He2.
    destruct (shape e1) as [|r [|c rest]]; try discriminate.
    destruct (c =? length (col_mask_of (mkTensor [rows; y_cnt] d))); [|discriminate].
    injection He2 as <-. cbn [shape nth].
    rewrite col_mask_of_seq, count_true_map_seq.
    change (length (kept_columns (mkTensor [rows; y_cnt] d)) = 0).
    now rewrite Hkept.
Qed.

Lemma flatten_embedding_all_zero_witness :
  flatten_embedding (mkTensor [2; 1; 2] [0; 0; 0; 0]%Z) (arange 2) (@None (tensor Q))
  = Ok (mkTensor [2; 1; 2] [0; 0; 0; 0]%Z, mkTensor [2; 0] [], None)
  /\ data (mkTensor [2; 0] (@nil Z)) = [].
Proof.
  split; [reflexivity|].
  exact (proj1 (proj2 (proj2
           (@flatten_embedding_all_zero Q [2] 1 2 [0; 0; 0; 0]%Z (arange 2) None
              (mkTensor [2; 1; 2] [0; 0; 0; 0]%Z) (mkTensor [2; 0] []) None
              eq_refl eq_refl
              (Forall_cons _ eq_refl (Forall_cons _ eq_refl
                 (Forall_cons _ eq_refl (Forall_cons _ eq_refl (Forall_nil _)))))
              eq_refl)))).
Defined.

Lemma Zsum_app (l1 l2 : list Z) : Zsum (l1 ++ l2) = (Zsum l1 + Zsum l2)%Z.
Proof.
  unfold Zsum. induction l1 as [|a l1 IH]; simpl; [reflexivity|].
  rewrite IH. lia.
Qed.

Lemma Zsum_nonneg (l : list Z) : Forall (fun e => (0 <= e)%Z) l -> (0 <= Zsum l)%Z.
Proof.
  unfold Zsum. induction 1 as [|a l Ha _ IH]; simpl; lia.
Qed.

Lemma nth_le_Zsum (l : list Z) (j : nat) :
  Forall (fun e => (0 <= e)%Z) l -> (0 <= nth j l 0 <= Zsum l)%Z.
Proof.
  intros Hl. revert j. induction Hl as [|a l Ha Hl IH]; intros j.
  - destruct j; simpl; lia.
  - pose proof (Zsum_nonneg l Hl) as Hs.
    destruct j as [|j]; simpl.
    + unfold Zsum in *. simpl. lia.
    + specialize (IH j). unfold Zsum in *. simpl. lia.
Qed.

(** With non-negative entries whose total fits int64, a column sum is the
    plain sum of the column. *)
Lemma col_sum_exact (rows : list (list Z)) (j : nat) (acc : Z) :
  (0 <= acc)%Z ->
  Forall (Forall (fun e => (0 <= e)%Z)) rows ->
  (acc + Zsum (concat rows) < 2 ^ 63)%Z ->
  fold_left (fun s row => add64 s (nth j row 0%Z)) rows acc
  = (acc + Zsum (map (fun row => nth j row 0%Z) rows))%Z.
Proof.
  intros Hacc Hrows. revert acc Hacc.
  induction Hrows as [|row rows Hrow Hrows IH]; intros acc Hacc Hb; simpl.
  - unfold Zsum. simpl. lia.
  - simpl in Hb. rewrite Zsum_app in Hb.
    pose proof (nth_le_Zsum row j Hrow) as Hn.
    assert (Hrest : (0 <= Zsum (concat rows))%Z).
    { apply Zsum_nonneg. now apply Forall_concat. }
    unfold add64 at 2. rewrite wrap64_exact by (unfold in_int64; lia).
    rewrite IH by lia.
    unfold Zsum. simpl. lia.
Qed.

Lemma Zsum_zero_all (l : list Z) :
  Forall (fun e => (0 <= e)%Z) l -> Zsum l = 0%Z -> Forall (fun e => e = 0%Z) l.
Proof.
  induction 1 as [|a l Ha Hl IH]; intros Hs; constructor.
  - pose proof (Zsum_nonneg l Hl). unfold Zsum in *. simpl in Hs. lia.
  - apply IH. pose proof (Zsum_nonneg l Hl). unfold Zsum in *. simpl in Hs. lia.
Qed.

(** No edge is lost by the compaction when the offset entries are valid
    indices: if the entries that the call leaves in its argument are
    non-negative and their total fits int64, every column that is dropped
    holds zeros only. *)
Theorem flatten_embedding_drops_only_empty_columns {E : Type} (pre : list nat)
    (x_cnt y_cnt : nat) (d : list Z) (batch_range : tensor Z)
    (edge : option (tensor E)) (after ret : tensor Z) (oe : option (tensor E)) :
  length d = numel (pre ++ [x_cnt; y_cnt]) ->
  wf_tensor batch_range ->
  flatten_embedding (mkTensor (pre ++ [x_cnt; y_cnt]) d) batch_range edge
  = Ok (after, ret, oe) ->
  Forall (fun e => (0 <= e)%Z) (data after) ->
  (Zsum (data after) < 2 ^ 63)%Z ->
  let rows := numel pre * x_cnt in
  forall r j, r < rows -> j < y_cnt ->
    ~ In j (kept_columns (mkTensor [rows; y_cnt] (data after))) ->
    nth (r * y_cnt + j) (data after) 0%Z = 0%Z.
Proof.
  intros Hd Hbr H Hpos Hsum rows r j Hr Hj Hdrop.
  destruct (flatten_embedding_ret _ _ _ _ _ _ _ _ _ Hd Hbr H) as (Hy & Hlen & _ & _).
  fold rows in Hlen.
  assert (Hcol : col_sum (chunks rows y_cnt (data after)) j = 0%Z).
  { destruct (Z.eq_dec (col_sum (chunks rows y_cnt (data after)) j) 0) as [Hc|Hc];
      [exact Hc|].
    exfalso. apply Hdrop. apply kept_columns_spec. rewrite rows_of_2d. simpl. auto. }
  unfold col_sum in Hcol.
  rewrite col_sum_exact in Hcol.
  - simpl in Hcol.
    assert (Hall : Forall (fun e => e = 0%Z)
                     (map (fun row => nth j row 0%Z) (chunks rows y_cnt (data after)))).
    { apply Zsum_zero_all; [|exact Hcol].
      rewrite Forall_map. 
      pose proof (chunks_Forall (fun e => (0 <= e)%Z) rows y_cnt (data after) Hpos) as HF.
      rewrite Forall_forall in *. intros row Hrow.
      apply (nth_le_Zsum row j (HF row Hrow)). }
    rewrite Forall_forall in Hall.
    rewrite <- (firstn_skipn_nth y_cnt (r * y_cnt) (data after) j 0%Z Hj).
    rewrite <- (chunks_nth rows y_cnt (data after) r Hr).
    apply Hall. apply in_map_iff.
    exists (nth r (chunks rows y_cnt (data after)) []). split; [reflexivity|].
    apply nth_In. now rewrite chunks_length.
  - lia.
  - now apply chunks_Forall.
  - rewrite chunks_concat by exact Hlen. lia.
Qed.

Lemma flatten_embedding_drops_only_empty_columns_witness :
  nth (0 * 2 + 1) (data (fst (fst sample_flattened))) 0%Z = 0%Z
  /\ nth (3 * 2 + 1) (data (fst (fst sample_flattened))) 0%Z = 0%Z.
Proof.
  pose proof (@flatten_embedding_drops_only_empty_columns Q [2] 2 2
                (data sample_adjacency) (arange 2) (Some sample_edges)
                (fst (fst sample_flattened)) (snd (fst sample_flattened))
                (snd sample_flattened) eq_refl eq_refl eq_refl) as H.
  assert (Hpos : Forall (fun e => (0 <= e)%Z) (data (fst (fst sample_flattened)))).
  { simpl. repeat constructor; lia. }
  assert (Hsum : (Zsum (data (fst (fst sample_flattened))) < 2 ^ 63)%Z)
    by (vm_compute; reflexivity).
  split; apply (H Hpos Hsum); try (simpl; lia);
    vm_compute; intros [Hk|[]]; discriminate Hk.
Defined.

(** ** One time step on the rank-4 path *)

(** A rank-4 adjacency with a single time step is handled like the rank-3
    adjacency without the time axis: same exception or same results, the
    array left in place keeping its four axes. *)
Theorem flatten_embedding_one_time_step {E : Type} (batch x_cnt y_cnt : nat)
    (d : list Z) (batch_range : tensor Z) (edge : option (tensor E)) :
  wf_tensor batch_range ->
  flatten_embedding (mkTensor [1; batch; x_cnt; y_cnt] d) batch_range edge
  = match flatten_embedding (mkTensor [batch; x_cnt; y_cnt] d) batch_range edge with
    | Ok (after, ret, oe) =>
        Ok (mkTensor [1; batch; x_cnt; y_cnt] (data after), ret, oe)
    | Err e => Err e
    end.
Proof.
  intros Hbr. unfold flatten_embedding. cbn [shape]. unfold view. cbn [shape tmap data].
  assert (Hn4 : numel [1; batch; 1; 1] = batch) by (simpl; lia).
  assert (Hn3 : numel [batch; 1; 1] = batch) by (simpl; lia).
  rewrite Hn4, Hn3.
  destruct (Nat.eqb_spec batch (numel (shape batch_range))) as [Hb|Hb];
    cbn [bind]; [|reflexivity].
  unfold binop_inplace. cbn [shape].
  assert (Hlen : length (map (fun b => mul64 b (Z.of_nat y_cnt)) (data batch_range))
                 = batch).
  { rewrite length_map. unfold wf_tensor in Hbr. lia. }
  pose proof (broadcast_trailing_ones [1; batch] x_cnt y_cnt _
                ltac:(rewrite Hlen; simpl; lia)) as H4.
  pose proof (broadcast_trailing_ones [batch] x_cnt y_cnt _
                ltac:(rewrite Hlen; simpl; lia)) as H3.
  cbn [app] in H4, H3. rewrite H4, H3. clear H4 H3.
  cbn [bind data shape].
  unfold reshape_rows, masked_fill. cbn [shape data last tmap].
  assert (Hnum : numel [1; batch; x_cnt; y_cnt] = numel [batch; x_cnt; y_cnt])
    by (simpl; lia).
  rewrite Hnum.
  destruct (numel [y_cnt] =? 0); cbn [bind]; [reflexivity|].
  destruct (numel [batch; x_cnt; y_cnt] mod numel [y_cnt] =? 0); cbn [bind];
    [|reflexivity].
  match goal with
  | |- context [index_cols ?t ?m] => destruct (index_cols t m) as [ret|]
  end; cbn [bind]; [|reflexivity].
  destruct edge as [e|]; [|reflexivity].
  repeat match goal with
         | |- context [bind ?r _] => destruct r; cbn [bind]; try reflexivity
         end.
Qed.

Lemma flatten_embedding_one_time_step_witness :
  flatten_embedding (mkTensor [1; 2; 2; 2] (data sample_adjacency)) (arange 2)
                    (Some sample_edges)
  = Ok (mkTensor [1; 2; 2; 2] [1; 0; 0; 0; 3; 0; 4; 0]%Z,
        snd (fst sample_flattened), snd sample_flattened).
Proof.
  exact (@flatten_embedding_one_time_step Q 2 2 2 (data sample_adjacency) (arange 2)
           (Some sample_edges) eq_refl).
Defined.

(* ================================================================== *)
(** * Further properties of union *)

Ltac bind_as H x Hx :=
  apply bind_inv in H; destruct H as (x & Hx & H).

(** [union] returns only for a state whose [p] and [v] both have rank 3
    (one sample) or both have rank 4 (a batch); the node features of the
    graph it returns have rank 4. *)
Theorem union_rank_precondition (config : GNNBasedActorCriticConfig) (dev : device)
    (state state' : raw_state) (g : batched_graph) :
  union config dev state = Ok (state', g) ->
  ((length (shape (s_p state)) = 3 /\ length (shape (s_v state)) = 3)
   \/ (length (shape (s_p state)) = 4 /\ length (shape (s_v state)) = 4))
  /\ length (shape (g_p g)) = 4
  /\ length (shape (g_v g)) = 4.
Proof.
  intros H. unfold union in H.
  do 8 bind_step H.
  destruct (shape x) as [|? [|? [|? [|? [|]]]]] eqn:Hv; try discriminate.
  destruct (shape x0) as [|? [|? [|? [|? [|]]]]] eqn:Hp; try discriminate.
  bind_step H. destruct x7 as [vo_after ve].
  bind_step H. destruct x7 as [po_after pe].
  bind_step H.
  bind_step H. destruct x8 as [p2p_after ppe].
  injection H as _ <-. cbn [g_p g_v]. rewrite Hv, Hp.
  split; [|split; reflexivity].
  destruct (Nat.eqb_spec (length (shape (s_p state))) 3) as [Hs|Hs].
  - left. split; [assumption|].
    apply expand_dims_rank in Hx. rewrite Hv in Hx. simpl in Hx. lia.
  - right. injection Hx as <-. injection Hx0 as <-.
    rewrite Hv, Hp. split; reflexivity.
Qed.

Lemma union_rank_precondition_witness :
  ((length (shape (s_p scenario_state)) = 3 /\ length (shape (s_v scenario_state)) = 3)
   \/ (length (shape (s_p scenario_state)) = 4
       /\ length (shape (s_v scenario_state)) = 4))
  /\ length (shape (g_p scenario_graph)) = 4
  /\ length (shape (g_v scenario_graph)) = 4.
Proof.
  exact (union_rank_precondition scenario_config CPU scenario_state
           scenario_state_after scenario_graph eq_refl).
Defined.

Lemma union_keeps_state_when_copied_witness :
  (exists g, union scenario_config CUDA scenario_state = Ok (scenario_state, g))
  /\ scenario_state = scenario_state.
Proof.
  split.
  - exists scenario_graph. reflexivity.
  - exact (union_keeps_state_when_copied scenario_config CUDA scenario_state
             scenario_state scenario_graph eq_refl eq_refl eq_refl).
Defined.

(** With a batch range of a single element 0 the offsets are all 0: the
    argument is left with the entries it had. *)
Lemma flatten_embedding_single_batch_identity {E : Type} (embedding : tensor Z)
    (edge : option (tensor E)) (after ret : tensor Z) (oe : option (tensor E)) :
  wf_tensor embedding ->
  Forall in_int64 (data embedding) ->
  flatten_embedding embedding (arange 1) edge = Ok (after, ret, oe) ->
  data after = data embedding.
Proof.
  intros Hwf Hrange H.
  assert (Hbr : wf_tensor (arange 1)) by reflexivity.
  destruct (flatten_embedding_inv _ _ _ _ _ _ Hbr H)
    as (pre & x & y & Hshape & _ & Hnum & _).
  destruct embedding as [sh d]. simpl in Hshape. subst sh.
  unfold wf_tensor in Hwf. simpl in Hwf, Hrange, Hnum |- *.
  destruct (flatten_embedding_ret _ _ _ _ _ _ _ _ _ Hwf Hbr H) as (_ & Hlen & _ & _).
  assert (Hsame : length (data after) = length d).
  { rewrite Hlen, Hwf, numel_app. simpl. lia. }
  apply nth_ext with (d := 0%Z) (d' := 0%Z); [exact Hsame|].
  intros i Hi. rewrite Hsame in Hi.
  rewrite (flatten_embedding_after_entry _ _ _ _ _ _ _ _ _ _ Hwf Hbr H Hi).
  destruct (Z.eqb_spec (nth i d 0%Z) 0) as [He|He]; [now rewrite He|].
  assert (Hz : nth (i / (x * y)) (data (arange 1)) 0%Z = 0%Z).
  { simpl. destruct (i / (x * y)) as [|[|n]]; reflexivity. }
  rewrite Hz. unfold add64, mul64. simpl Z.mul. rewrite (wrap64_exact 0).
  - rewrite Z.add_0_r. apply wrap64_exact.
    rewrite Forall_forall in Hrange. apply Hrange. now apply nth_In.
  - unfold in_int64. lia.
Qed.

(** For one sample [union] leaves the state dictionary as it was even
    where the tensors share its memory: the only batch element has offset
    0. *)
Theorem union_keeps_single_sample (config : GNNBasedActorCriticConfig) (dev : device)
    (state state' : raw_state) (g : batched_graph) :
  length (shape (s_p state)) = 3 ->
  wf_tensor (arr (s_vo state)) -> Forall in_int64 (data (arr (s_vo state))) ->
  wf_tensor (arr (s_po state)) -> Forall in_int64 (data (arr (s_po state))) ->
  union config dev state = Ok (state', g) ->
  state' = state.
Proof.
  intros Hrank Hwvo Hrvo Hwpo Hrpo H. unfold union in H.
  rewrite Hrank in H. cbn [Nat.eqb] in H.
  bind_as H v Hv0. bind_as H p Hp0. bind_as H vo Hvo0. bind_as H po Hpo0.
  bind_as H pedge Hpe0. bind_as H vedge Hve0. bind_as H ppedge Hppe0.
  bind_as H seq_mask Hm0.
  destruct (shape v) as [|sl [|b [|vc [|vd [|]]]]] eqn:Hv; try discriminate.
  destruct (shape p) as [|? [|? [|? [|? [|]]]]] eqn:Hp; try discriminate.
  assert (Hb : b = 1).
  { unfold expand_dims in Hv0.
    destruct (1 <=? length (shape (s_v state))); [|discriminate].
    injection Hv0 as <-. simpl in Hv.
    destruct (shape (s_v state)) as [|a rest]; simpl in Hv; [discriminate|].
    now injection Hv. }
  subst b.
  bind_as H rvo Hrvo0. destruct rvo as [vo_after ve].
  bind_as H rpo Hrpo0. destruct rpo as [po_after pe].
  bind_as H p2p Hp2p.
  bind_as H rpp Hrpp0. destruct rpp as [p2p_after ppe].
  injection H as <- _.
  unfold union_relation in Hrvo0, Hrpo0.
  bind_as Hrvo0 fvo Hfvo. destruct fvo as [[vo_a vadj] vedge'].
  bind_as Hrpo0 fpo Hfpo. destruct fpo as [[po_a padj] pedge'].
  assert (Hvo : data vo_a = data (arr (s_vo state))).
  { unfold expand_dims in Hvo0. simpl in Hvo0. injection Hvo0 as <-.
    apply flatten_embedding_single_batch_identity in Hfvo;
      [exact Hfvo | unfold wf_tensor in *; simpl; lia | exact Hrvo]. }
  assert (Hpo : data po_a = data (arr (s_po state))).
  { unfold expand_dims in Hpo0. simpl in Hpo0. injection Hpo0 as <-.
    apply flatten_embedding_single_batch_identity in Hfpo;
      [exact Hfpo | unfold wf_tensor in *; simpl; lia | exact Hrpo]. }
  assert (Hvo' : vo_after = vo_a).
  { destruct vedge' as [ve'|]; [|discriminate].
    bind_as Hrvo0 a1 Ha1. bind_as Hrvo0 a2 Ha2. now injection Hrvo0. }
  assert (Hpo' : po_after = po_a).
  { destruct pedge' as [pe'|]; [|discriminate].
    bind_as Hrpo0 a1 Ha1. bind_as Hrpo0 a2 Ha2. now injection Hrpo0. }
  subst vo_after po_after.
  unfold written_back. rewrite Hvo, Hpo.
  destruct state as [sv sp [dvo [shvo dvo']] [dpo [shpo dpo']] ? ? ? ? ? ?].
  simpl. destruct (shares_memory dvo dev), (shares_memory dpo dev); reflexivity.
Qed.

Lemma union_keeps_single_sample_witness :
  (exists g, union scenario_config CPU single_state = Ok (single_state, g))
  /\ single_state = single_state.
Proof.
  assert (Hu : exists g, union scenario_config CPU single_state = Ok (single_state, g)).
  { eexists. vm_compute. reflexivity. }
  split; [exact Hu|].
  destruct Hu as [g Hg].
  refine (union_keeps_single_sample scenario_config CPU single_state single_state g
            eq_refl eq_refl _ eq_refl _ Hg).
  - simpl. repeat constructor; unfold in_int64; lia.
  - simpl. repeat constructor; unfold in_int64; lia.
Defined.

(** ** Masks and transposed adjacencies *)

Lemma flat_map_nth_block {B : Type} (f : nat -> list B) (n w i k : nat) (d : B) :
  (forall i', i' < n -> length (f i') = w) ->
  i < n -> k < w ->
  nth (i * w + k) (flat_map f (seq 0 n)) d = nth k (f i) d.
Proof.
  intros Hlen Hi Hk. rewrite flat_map_concat_map.
  rewrite concat_nth_block; [|
    rewrite Forall_map; apply Forall_forall; intros j Hj;
    apply in_seq in Hj; apply Hlen; lia | exact Hk].
  rewrite nth_indep with (d' := f 0) by now rewrite length_map, length_seq.
  rewrite map_nth. now rewrite seq_nth.
Qed.

Lemma transpose01_2d_entry {A : Type} (R m : nat) (d : list A) (t : tensor A)
    (dflt : A) :
  length d = R * m ->
  transpose01 (mkTensor [R; m] d) = Ok t ->
  shape t = [m; R]
  /\ forall r k, r < R -> k < m ->
       nth (k * R + r) (data t) dflt = nth (r * m + k) d dflt.
Proof.
  intros Hd H. unfold transpose01 in H. cbn [shape data] in H.
  injection H as <-. cbn [shape data]. split; [reflexivity|].
  intros r k Hr Hk. change (numel []) with 1.
  assert (Hcell : forall i j, i < R -> j < m ->
            length (firstn 1 (skipn ((i * m + j) * 1) d)) = 1).
  { intros i j Hi Hj. rewrite length_firstn, length_skipn. nia. }
  rewrite (flat_map_nth_block _ m R k r dflt); [| |exact Hk|exact Hr].
  - replace r with (r * 1 + 0) at 1 by lia.
    rewrite (flat_map_nth_block _ R 1 r 0 dflt); [| |exact Hr|lia].
    + change (nth 0 (firstn 1 (skipn ((r * m + k) * 1) d)) dflt
              = nth (r * m + k) d dflt).
      rewrite firstn_skipn_nth by lia. f_equal. lia.
    + intros i Hi. now apply Hcell.
  - intros j Hj. rewrite flat_map_concat_map.
    rewrite (concat_length_blocks 1).
    + rewrite length_map, length_seq. lia.
    + rewrite Forall_map. apply Forall_forall. intros i Hi. apply in_seq in Hi.
      apply Hcell; lia.
Qed.

Lemma numel_expand_dims (sh : list nat) (axis : nat) :
  numel (firstn axis sh ++ 1 :: skipn axis sh) = numel sh.
Proof.
  rewrite numel_app. simpl. rewrite Nat.add_0_r, <- numel_app.
  now rewrite firstn_skipn.
Qed.

Lemma expand_dims_wf {A : Type} (t t' : tensor A) (axis : nat) :
  wf_tensor t -> expand_dims t axis = Ok t' -> wf_tensor t'.
Proof.
  unfold wf_tensor, expand_dims. intros Hwf H.
  destruct (axis <=? length (shape t)); [|discriminate].
  injection H as <-. simpl. now rewrite numel_expand_dims.
Qed.

Lemma repeat_leading_wf {A : Type} (t t' : tensor A) (n : nat) :
  wf_tensor t -> repeat_leading t n = Ok t' -> wf_tensor t'.
Proof.
  unfold wf_tensor, repeat_leading, pad_shape. intros Hwf H.
  assert (Hlen : length (concat (repeat (data t) n)) = n * numel (shape t)).
  { rewrite (concat_length_blocks (length (data t))).
    - rewrite repeat_length. lia.
    - apply Forall_forall. intros l Hl. now apply repeat_spec in Hl; subst. }
  destruct (shape t) as [|a [|b [|c [|? ?]]]]; simpl in H;
    try discriminate; injection H as <-; simpl in *; lia.
Qed.

(** One relation of [union]: the mask is taken before the adjacency is
    transposed. *)
Lemma union_relation_mask (embedding batch_range : tensor Z) (e : tensor Q)
    (after : tensor Z) (rel : relation) :
  wf_tensor embedding ->
  wf_tensor batch_range ->
  union_relation embedding batch_range e = Ok (after, rel) ->
  mask_marks_zero_adj rel.
Proof.
  intros Hwf Hbr H. unfold union_relation in H.
  bind_as H f Hf. destruct f as [[aft xadj] xedge].
  destruct xedge as [xedge|]; [|discriminate].
  bind_as H tadj Htadj. bind_as H tedge Htedge. injection H as _ <-.
  destruct (flatten_embedding_inv _ _ _ _ _ _ Hbr Hf)
    as (pre & x & y & Hshape & _ & _ & _).
  destruct embedding as [sh d]. simpl in Hshape. subst sh.
  unfold wf_tensor in Hwf. simpl in Hwf.
  destruct (flatten_embedding_ret _ _ _ _ _ _ _ _ _ Hwf Hbr Hf)
    as (_ & Hlen & Hret & _).
  destruct (index_cols_2d_data _ _ _ _ Hlen Hret) as [Hs Hdata].
  set (R := numel pre * x) in *.
  set (m := length (kept_columns (mkTensor [R; y] (data aft)))) in *.
  assert (Hretlen : length (data xadj) = R * m).
  { rewrite Hdata, (concat_length_blocks m).
    - now rewrite length_map, chunks_length.
    - rewrite Forall_map. apply Forall_forall. intros row _. apply length_map. }
  destruct xadj as [rsh rd]. simpl in Hs, Hretlen, Htadj |- *. subst rsh.
  destruct (transpose01_2d_entry R m rd tadj 0%Z Hretlen Htadj) as [Hts Hte].
  exists R, m. cbn [adj mask tmap shape data]. repeat split; auto.
  intros r k Hr Hk. rewrite (Hte r k Hr Hk).
  rewrite nth_indep with (d' := (0 =? 0)%Z) by (rewrite length_map; nia).
  now rewrite (map_nth (fun a => (a =? 0)%Z)).
Qed.

(** In every relation of the graph that [union] returns, the mask is the
    zero test of the adjacency entries, but laid out the other way round:
    the mask has one row per source and the adjacency one row per kept
    target, so entry (r, k) of the mask answers for entry (k, r) of the
    adjacency. *)
Theorem union_masks_mark_zero_adj (config : GNNBasedActorCriticConfig) (dev : device)
    (state state' : raw_state) (g : batched_graph) :
  wf_tensor (arr (s_vo state)) ->
  wf_tensor (arr (s_po state)) ->
  wf_tensor (p2p_adj config) ->
  union config dev state = Ok (state', g) ->
  mask_marks_zero_adj (g_ve g)
  /\ mask_marks_zero_adj (g_pe g)
  /\ mask_marks_zero_adj (g_ppe g).
Proof.
  intros Hwvo Hwpo Hwpp H. unfold union in H.
  bind_as H v Hv0. bind_as H p Hp0. bind_as H vo Hvo0. bind_as H po Hpo0.
  bind_as H pedge Hpe0. bind_as H vedge Hve0. bind_as H ppedge Hppe0.
  bind_as H seq_mask Hm0.
  destruct (shape v) as [|sl [|b [|vc [|vd [|]]]]]; try discriminate.
  destruct (shape p) as [|? [|? [|? [|? [|]]]]]; try discriminate.
  bind_as H rvo Hrvo. destruct rvo as [vo_after ve].
  bind_as H rpo Hrpo. destruct rpo as [po_after pe].
  bind_as H p2p Hp2p.
  bind_as H rpp Hrpp. destruct rpp as [p2p_after ppe].
  injection H as _ <-. cbn [g_ve g_pe g_ppe].
  assert (Hbr : wf_tensor (arange b)).
  { unfold wf_tensor, arange. simpl. rewrite length_map, length_seq. lia. }
  assert (Hvo : wf_tensor vo).
  { destruct (length (shape (s_p state)) =? 3).
    - now apply (expand_dims_wf _ _ _ Hwvo Hvo0).
    - now injection Hvo0 as <-. }
  assert (Hpo : wf_tensor po).
  { destruct (length (shape (s_p state)) =? 3).
    - now apply (expand_dims_wf _ _ _ Hwpo Hpo0).
    - now injection Hpo0 as <-. }
  pose proof (repeat_leading_wf _ _ _ Hwpp Hp2p) as Hpp.
  split; [|split].
  - exact (union_relation_mask _ _ _ _ _ Hvo Hbr Hrvo).
  - exact (union_relation_mask _ _ _ _ _ Hpo Hbr Hrpo).
  - exact (union_relation_mask _ _ _ _ _ Hpp Hbr Hrpp).
Qed.

Lemma union_masks_mark_zero_adj_witness :
  mask_marks_zero_adj (g_ve scenario_graph)
  /\ mask_marks_zero_adj (g_pe scenario_graph)
  /\ mask_marks_zero_adj (g_ppe scenario_graph).
Proof.
  exact (union_masks_mark_zero_adj scenario_config CPU scenario_state
           scenario_state_after scenario_graph eq_refl eq_refl eq_refl eq_refl).
Defined.

(* ================================================================== *)
(** * Further properties of the weight store *)

(** ** Names of checkpoints *)

Lemma is_digit_facts (c : ascii) :
  is_digit c = true ->
  is_space c = false
  /\ Ascii.eqb c "."%char = false
  /\ Ascii.eqb c "_"%char = false
  /\ Ascii.eqb c "-"%char = false
  /\ Ascii.eqb c "+"%char = false.
Proof.
  destruct c as [[|] [|] [|] [|] [|] [|] [|] [|]]; vm_compute;
    intros H; try discriminate H; repeat split.
Qed.

Lemma all_digits_of_uint (u : Decimal.uint) :
  all_digits (NilEmpty.string_of_uint u) = true.
Proof.
  induction u; simpl; auto.
Qed.

Lemma digits_value_pos (u : Decimal.uint) (acc : positive) :
  digits_value (Zpos acc) (NilEmpty.string_of_uint u)
  = Some (Zpos (Pos.of_uint_acc u acc)).
Proof.
  revert acc. induction u; intros acc;
    cbn [NilEmpty.string_of_uint digits_value Pos.of_uint_acc];
    try reflexivity;
    (match goal with
     | |- context [is_digit ?c] => change (is_digit c) with true
     end; cbv iota;
     match goal with
     | |- digits_value (_ + ?k)%Z _ = Some (Zpos (Pos.of_uint_acc _ ?a)) =>
         let v := eval vm_compute in k in
         change k with v;
         replace (10 * Zpos acc + v)%Z with (Zpos a) by lia
     end; apply IHu).
Qed.

Lemma digits_value_zero (u : Decimal.uint) :
  digits_value 0 (NilEmpty.string_of_uint u) = Some (Z.of_uint u).
Proof.
  induction u; cbn [NilEmpty.string_of_uint digits_value]; try reflexivity;
    match goal with
    | |- context [is_digit ?c] => change (is_digit c) with true
    end; cbv iota.
  - exact IHu.
  - apply (digits_value_pos u 1).
  - apply (digits_value_pos u 2).
  - apply (digits_value_pos u 3).
  - apply (digits_value_pos u 4).
  - apply (digits_value_pos u 5).
  - apply (digits_value_pos u 6).
  - apply (digits_value_pos u 7).
  - apply (digits_value_pos u 8).
  - apply (digits_value_pos u 9).
Qed.

Lemma lstrip_digits (s : string) : all_digits s = true -> lstrip s = s.
Proof.
  destruct s as [|c s]; simpl; auto.
  intros H. apply andb_prop in H. destruct H as [Hc _].
  destruct (is_digit_facts c Hc) as (Hsp & _). now rewrite Hsp.
Qed.

Lemma rstrip_digits (s : string) : all_digits s = true -> rstrip s = s.
Proof.
  induction s as [|c s IH]; simpl; auto.
  intros H. apply andb_prop in H. destruct H as [Hc Hs].
  rewrite (IH Hs). destruct (is_digit_facts c Hc) as (Hsp & _).
  destruct s; [now rewrite Hsp | reflexivity].
Qed.

Lemma split_head_digits (sep : ascii) (s t : string) :
  all_digits s = true ->
  is_digit sep = false ->
  split_head sep (String.append s (String sep t)) = s.
Proof.
  intros Hs Hsep. induction s as [|c s IH]; simpl.
  - now rewrite Ascii.eqb_refl.
  - simpl in Hs. apply andb_prop in Hs. destruct Hs as [Hc Hs].
    destruct (Ascii.eqb_spec c sep) as [->|_]; [congruence|].
    now rewrite (IH Hs).
Qed.

Lemma split_head_dot_digits (s : string) :
  all_digits s = true ->
  split_head "."%char (String.append s "_ac.pkl"%string)
  = String.append s "_ac"%string.
Proof.
  intros Hs. induction s as [|c s IH]; simpl; [reflexivity|].
  simpl in Hs. apply andb_prop in Hs. destruct Hs as [Hc Hs].
  destruct (is_digit_facts c Hc) as (_ & Hdot & _). rewrite Hdot.
  now rewrite (IH Hs).
Qed.

Lemma contains_ac_append (s t : string) :
  contains_ac t = true -> contains_ac (String.append s t) = true.
Proof.
  intros Ht. induction s as [|c s IH]; simpl; auto.
  rewrite IH. apply orb_true_r.
Qed.

Lemma py_int_unsigned (u : Decimal.uint) :
  u <> Decimal.Nil ->
  py_int (NilEmpty.string_of_uint u) = Ok (Z.of_uint u).
Proof.
  intros Hu. unfold py_int.
  rewrite lstrip_digits, rstrip_digits by apply all_digits_of_uint.
  assert (Hval : unsigned_value (NilEmpty.string_of_uint u) = Some (Z.of_uint u)).
  { unfold unsigned_value. rewrite digits_value_zero.
    destruct u; try reflexivity. contradiction. }
  destruct u; try contradiction; cbn [NilEmpty.string_of_uint] in *;
    vm_compute Ascii.eqb; rewrite Hval; reflexivity.
Qed.

Lemma not_space_minus : is_space "-"%char = false.
Proof.
  reflexivity.
Qed.

Lemma py_int_negative (u : Decimal.uint) :
  u <> Decimal.Nil ->
  py_int (String "-"%char (NilEmpty.string_of_uint u)) = Ok (- Z.of_uint u)%Z.
Proof.
  intros Hu. unfold py_int.
  assert (Hl : lstrip (String "-"%char (NilEmpty.string_of_uint u))
               = String "-"%char (NilEmpty.string_of_uint u)) by reflexivity.
  rewrite Hl.
  assert (Hr : rstrip (String "-"%char (NilEmpty.string_of_uint u))
               = String "-"%char (NilEmpty.string_of_uint u)).
  { cbn [rstrip]. rewrite rstrip_digits by apply all_digits_of_uint.
    destruct u; try contradiction; reflexivity. }
  rewrite Hr.
  assert (Hval : unsigned_value (NilEmpty.string_of_uint u) = Some (Z.of_uint u)).
  { unfold unsigned_value. rewrite digits_value_zero.
    destruct u; try reflexivity. contradiction. }
  rewrite Hval. reflexivity.
Qed.

Lemma checkpoint_name_key (id : Z) : _get_save_idx (checkpoint_name id) = Ok id.
Proof.
  unfold _get_save_idx, checkpoint_name.
  assert (Hnn : forall p, Pos.to_uint p <> Decimal.Nil).
  { intros p. apply DecimalPos.Unsigned.to_uint_nonnil. }
  destruct id as [|p|p]; cbn [Z.to_int NilZero.string_of_int].
  - reflexivity.
  - unfold NilZero.string_of_uint.
    assert (Hs : match Pos.to_uint p with
                 | Decimal.Nil => "0"%string
                 | _ => NilEmpty.string_of_uint (Pos.to_uint p)
                 end = NilEmpty.string_of_uint (Pos.to_uint p)).
    { specialize (Hnn p). destruct (Pos.to_uint p); congruence. }
    rewrite Hs.
    rewrite split_head_dot_digits by apply all_digits_of_uint.
    rewrite (split_head_digits "_"%char _ "ac"%string)
      by (try apply all_digits_of_uint; reflexivity).
    rewrite py_int_unsigned by apply Hnn.
    f_equal. exact (DecimalZ.of_to (Zpos p)).
  - unfold NilZero.string_of_uint.
    assert (Hs : match Pos.to_uint p with
                 | Decimal.Nil => "0"%string
                 | _ => NilEmpty.string_of_uint (Pos.to_uint p)
                 end = NilEmpty.string_of_uint (Pos.to_uint p)).
    { specialize (Hnn p). destruct (Pos.to_uint p); congruence. }
    rewrite Hs. cbn [String.append split_head].
    change (Ascii.eqb "-" ".")%char with false. cbv iota.
    rewrite split_head_dot_digits by apply all_digits_of_uint.
    cbn [split_head]. change (Ascii.eqb "-" "_")%char with false. cbv iota.
    rewrite (split_head_digits "_"%char _ "ac"%string)
      by (try apply all_digits_of_uint; reflexivity).
    rewrite py_int_negative by apply Hnn.
    f_equal. exact (DecimalZ.of_to (Zneg p)).
Qed.

(** The name that [save_model] gives to checkpoint [id] contains "ac", and
    [_get_save_idx] reads [id] back from it, for every integer [id]
    (negative ones included). *)
Theorem get_save_idx_of_checkpoint_name (id : Z) :
  _get_save_idx (checkpoint_name id) = Ok id
  /\ contains_ac (checkpoint_name id) = true.
Proof.
  split.
  - apply checkpoint_name_key.
  - apply contains_ac_append. reflexivity.
Qed.

(** ** Which checkpoint is the latest *)

Lemma insert_by_key_greater (x : Z * string) (s : list (Z * string)) :
  Forall (fun y => (fst y < fst x)%Z) s -> insert_by_key x s = s ++ [x].
Proof.
  induction 1 as [|y s Hy _ IH]; simpl; auto.
  destruct (Z.leb_spec (fst x) (fst y)); [lia|]. now rewrite IH.
Qed.

Lemma insert_by_key_nonempty (x : Z * string) (s : list (Z * string)) :
  insert_by_key x s <> [].
Proof.
  destruct s as [|y s]; simpl; [discriminate|].
  destruct (fst x <=? fst y)%Z; discriminate.
Qed.

Lemma insert_by_key_keeps_last (z d : Z * string) (s : list (Z * string)) :
  s <> [] ->
  (fst z <= fst (last s d))%Z ->
  last (insert_by_key z s) d = last s d.
Proof.
  induction s as [|y s IH]; intros Hne Hle; [contradiction|].
  cbn [insert_by_key].
  destruct (Z.leb_spec (fst z) (fst y)) as [Hzy|Hzy]; [reflexivity|].
  destruct s as [|y' s].
  - simpl in Hle. lia.
  - change (last (y :: insert_by_key z (y' :: s)) d)
      with (match insert_by_key z (y' :: s) with
            | [] => y
            | _ :: _ => last (insert_by_key z (y' :: s)) d
            end).
    destruct (insert_by_key z (y' :: s)) eqn:E.
    + now apply insert_by_key_nonempty in E.
    + change (last (y :: y' :: s) d) with (last (y' :: s) d).
      apply IH; [discriminate | exact Hle].
Qed.

(** The stable sort leaves last the last of the elements of greatest key. *)
Lemma sort_last_stable (k1 k2 : list (Z * string)) (x d : Z * string) :
  Forall (fun y => (fst y <= fst x)%Z) k1 ->
  Forall (fun y => (fst y < fst x)%Z) k2 ->
  last (fold_right insert_by_key [] (k1 ++ x :: k2)) d = x.
Proof.
  intros H1 H2. rewrite fold_right_app. cbn [fold_right].
  assert (Hbase : last (insert_by_key x (fold_right insert_by_key [] k2)) d = x).
  { rewrite insert_by_key_greater.
    - apply last_last.
    - rewrite Forall_forall in *. intros y Hy. apply H2.
      apply (Permutation_in _ (sort_by_insertion_perm k2)). exact Hy. }
  pose proof (insert_by_key_nonempty x (fold_right insert_by_key [] k2)) as Hne.
  revert Hbase Hne. generalize (insert_by_key x (fold_right insert_by_key [] k2)).
  intros s Hs Hne.
  induction H1 as [|z k1 Hz _ IH]; cbn [fold_right]; [exact Hs|].
  rewrite insert_by_key_keeps_last.
  - exact IH.
  - clear IH. induction k1 as [|z' k1 IHk]; cbn [fold_right]; [exact Hne|].
    apply insert_by_key_nonempty.
  - rewrite IH. exact Hz.
Qed.

(** [load_model(idx=-1)] resolves ties by the order of the folder listing:
    among the names that contain "ac", it takes the last one (in listing
    order) of those with the greatest leading integer. *)
Theorem latest_checkpoint_last_of_greatest (listing l1 l2 : list string)
    (x : string) (kx : Z) :
  filter contains_ac listing = l1 ++ x :: l2 ->
  _get_save_idx x = Ok kx ->
  (forall f, In f l1 -> exists k, _get_save_idx f = Ok k /\ (k <= kx)%Z) ->
  (forall f, In f l2 -> exists k, _get_save_idx f = Ok k /\ (k < kx)%Z) ->
  latest_checkpoint listing = Ok x.
Proof.
  intros Hfps Hx H1 H2. unfold latest_checkpoint. rewrite Hfps.
  assert (Hall : forall f, In f (l1 ++ x :: l2) -> exists k, _get_save_idx f = Ok k).
  { intros f Hf. apply in_app_or in Hf. destruct Hf as [Hf|[<-|Hf]].
    - destruct (H1 f Hf) as (k & Hk & _). eauto.
    - eauto.
    - destruct (H2 f Hf) as (k & Hk & _). eauto. }
  destruct (with_keys_ok _get_save_idx _ Hall) as (keyed & Hw & Hm & HF).
  unfold sort_by_key. rewrite Hw. cbn [bind].
  apply map_eq_app in Hm. destruct Hm as (k1 & kr & -> & Hm1 & Hmr).
  apply map_eq_cons in Hmr. destruct Hmr as (kxp & k2 & -> & Hsx & Hm2).
  rewrite Forall_forall in HF.
  assert (Hkx : kxp = (kx, x)).
  { pose proof (HF kxp ltac:(apply in_or_app; right; now left)) as Hk.
    rewrite Hsx, Hx in Hk. injection Hk as Hk.
    destruct kxp as [a b]. simpl in *. now subst. }
  subst kxp.
  assert (Hk1 : Forall (fun y => (fst y <= fst (kx, x))%Z) k1).
  { apply Forall_forall. intros y Hy. simpl.
    destruct (H1 (snd y)) as (k & Hk & Hle).
    { rewrite <- Hm1. now apply in_map. }
    rewrite (HF y ltac:(apply in_or_app; now left)) in Hk.
    injection Hk as <-. exact Hle. }
  assert (Hk2 : Forall (fun y => (fst y < fst (kx, x))%Z) k2).
  { apply Forall_forall. intros y Hy. simpl.
    destruct (H2 (snd y)) as (k & Hk & Hlt).
    { rewrite <- Hm2. now apply in_map. }
    rewrite (HF y ltac:(apply in_or_app; right; now right)) in Hk.
    injection Hk as <-. exact Hlt. }
  pose proof (sort_last_stable k1 k2 (kx, x) (0%Z, EmptyString) Hk1 Hk2) as Hlast.
  set (sorted := fold_right insert_by_key [] (k1 ++ (kx, x) :: k2)) in *.
  assert (Hne : sorted <> []).
  { intros Hs. pose proof (sort_by_insertion_perm (k1 ++ (kx, x) :: k2)) as Hp.
    fold sorted in Hp. rewrite Hs in Hp. apply Permutation_nil in Hp.
    destruct k1; discriminate Hp. }
  assert (Hmatch : match map snd sorted with
                   | [] => Err IndexError
                   | _ :: _ => Ok (last (map snd sorted) EmptyString)
                   end = Ok (last (map snd sorted) EmptyString)).
  { destruct sorted; [contradiction | reflexivity]. }
  rewrite Hmatch.
  change EmptyString with (snd (0%Z, EmptyString)).
  rewrite last_of_map, Hlast. reflexivity.
Qed.

Lemma latest_checkpoint_last_of_greatest_witness :
  latest_checkpoint ["7_ac.pkl"; "notes.txt"; "9_ac.pkl"; "9_ac.bak"; "2_ac.pkl"]%string
  = Ok "9_ac.bak"%string.
Proof.
  apply (latest_checkpoint_last_of_greatest
           ["7_ac.pkl"; "notes.txt"; "9_ac.pkl"; "9_ac.bak"; "2_ac.pkl"]%string
           ["7_ac.pkl"; "9_ac.pkl"]%string
           ["2_ac.pkl"]%string "9_ac.bak"%string 9%Z eq_refl eq_refl).
  - intros f [<-|[<-|[]]]; [exists 7%Z | exists 9%Z]; split; try reflexivity; lia.
  - intros f [<-|[]]. exists 2%Z. split; [reflexivity | lia].
Defined.

Lemma filter_all_true {A : Type} (f : A -> bool) (l : list A) :
  (forall a, In a l -> f a = true) -> filter f l = l.
Proof.
  induction l as [|a l IH]; intros H; simpl; auto.
  rewrite (H a (or_introl eq_refl)), IH; auto.
  intros b Hb. apply H. now right.
Qed.

(** In a folder whose matching files are the ones [save_model] wrote for
    the identifiers [ids], [load_model(idx=-1)] loads the file that
    [save_model] wrote for the greatest identifier. *)
Theorem load_model_latest_of_saved (listdir : string -> result (list string))
    (torch_load : string -> result state_dict) (model_sd : state_dict)
    (folder_pth : string) (listing : list string) (ids : list Z) (top : Z) :
  listdir folder_pth = Ok listing ->
  filter contains_ac listing = map checkpoint_name ids ->
  In top ids ->
  (forall i, In i ids -> (i <= top)%Z) ->
  load_model listdir torch_load model_sd folder_pth (-1)
  = (weights <- torch_load (save_model_pth folder_pth top) ;;
     _set_gnn_weights weights model_sd).
Proof.
  intros Hls Hfps Hin Hmax.
  unfold load_model. cbn [Z.eqb Z.opp Pos.eqb]. rewrite Hls. cbn [bind].
  assert (Hne : filter contains_ac listing <> []).
  { rewrite Hfps. destruct ids; [contradiction | discriminate]. }
  assert (Hall : forall f, In f (filter contains_ac listing) ->
                           exists k, _get_save_idx f = Ok k).
  { intros f Hf. rewrite Hfps in Hf. apply in_map_iff in Hf.
    destruct Hf as (i & <- & _). exists i.
    apply checkpoint_name_key. }
  destruct (latest_checkpoint_greatest listing Hne Hall)
    as (p & k & Hp & Hpl & Hpac & Hk & Hgreat).
  assert (Hpin : In p (filter contains_ac listing)).
  { apply filter_In. now split. }
  rewrite Hfps in Hpin. apply in_map_iff in Hpin. destruct Hpin as (i & <- & Hi).
  rewrite (checkpoint_name_key i) in Hk. injection Hk as <-.
  assert (Hle : (top <= i)%Z).
  { apply (Hgreat (checkpoint_name top)).
    - rewrite Hfps. now apply in_map.
    - apply checkpoint_name_key. }
  assert (Heq : i = top) by (specialize (Hmax i Hi); lia).
  subst i. rewrite Hp. reflexivity.
Qed.

Lemma load_model_latest_of_saved_witness :
  load_model sample_listdir sample_torch_load sample_state_dict "ckpt" (-1)
  = (weights <- sample_torch_load (save_model_pth "ckpt" 10) ;;
     _set_gnn_weights weights sample_state_dict).
Proof.
  apply (load_model_latest_of_saved sample_listdir sample_torch_load
           sample_state_dict "ckpt" ["10_ac.pkl"; "9_ac.pkl"; "notes.txt"]%string
           [10; 9]%Z 10%Z eq_refl eq_refl).
  - now left.
  - intros i [<-|[<-|[]]]; lia.
Defined.

Lemma with_keys_error (key : string -> result Z) (l : list string) (f : string) :
  In f l ->
  (forall k, key f <> Ok k) ->
  (forall g e, key g = Err e -> e = ValueError) ->
  with_keys key l = Err ValueError.
Proof.
  intros Hin Hf Herr. induction l as [|g l IH]; [contradiction|].
  cbn [with_keys]. destruct (key g) as [k|e] eqn:Hg; cbn [bind].
  - destruct Hin as [->|Hin]; [now elim (Hf k)|].
    now rewrite (IH Hin).
  - now rewrite (Herr g e Hg).
Qed.

Lemma get_save_idx_error (g : string) (e : py_error) :
  _get_save_idx g = Err e -> e = ValueError.
Proof.
  unfold _get_save_idx, py_int.
  match goal with
  | |- context [match ?o with Some _ => _ | None => _ end] => destruct o
  end; [discriminate|]. now intros [= <-].
Qed.

(** One file whose name contains "ac" but has no leading integer (such
    as "actor.pkl") is enough to make [load_model(idx=-1)] stop with a
    [ValueError], whatever checkpoints the folder holds besides. *)
Theorem load_model_stray_file (listdir : string -> result (list string))
    (torch_load : string -> result state_dict) (model_sd : state_dict)
    (folder_pth : string) (listing : list string) (f : string) :
  listdir folder_pth = Ok listing ->
  In f listing ->
  contains_ac f = true ->
  (forall k, _get_save_idx f <> Ok k) ->
  load_model listdir torch_load model_sd folder_pth (-1) = Err ValueError.
Proof.
  intros Hls Hin Hac Hbad.
  unfold load_model. cbn [Z.eqb Z.opp Pos.eqb]. rewrite Hls. cbn [bind].
  unfold latest_checkpoint, sort_by_key.
  rewrite (with_keys_error _get_save_idx (filter contains_ac listing) f).
  - reflexivity.
  - apply filter_In. now split.
  - exact Hbad.
  - exact get_save_idx_error.
Qed.

Lemma load_model_stray_file_witness :
  load_model (fun _ => Ok ["10_ac.pkl"; "actor.pkl"]%string) sample_torch_load
             sample_state_dict "ckpt" (-1)
  = Err ValueError.
Proof.
  apply (load_model_stray_file (fun _ => Ok ["10_ac.pkl"; "actor.pkl"]%string)
           sample_torch_load sample_state_dict "ckpt"
           ["10_ac.pkl"; "actor.pkl"]%string "actor.pkl"%string eq_refl).
  - right. now left.
  - reflexivity.
  - intros k. discriminate.
Defined.

(** ** Restoring weights *)

Lemma expand_same {A : Type} (sh : list nat) (d : list A) :
  length d = numel sh -> expand sh sh d = d.
Proof.
  revert d. induction sh as [|s sh IH]; intros d Hd; [reflexivity|].
  cbn [expand]. simpl in Hd.
  destruct (Nat.eqb_spec s 1) as [->|Hs].
  - simpl. rewrite app_nil_r, firstn_all2 by lia. apply IH. lia.
  - rewrite (flat_map_chunks (fun c => expand sh sh c) s (numel sh) d).
    rewrite flat_map_concat_map.
    rewrite map_ext_in with (g := fun c => c).
    + rewrite map_id. apply chunks_concat. lia.
    + intros c Hc. apply IH.
      pose proof (chunks_Forall_length s (numel sh) d ltac:(lia)) as HF.
      rewrite Forall_forall in HF. now apply HF.
Qed.

Lemma broadcast_to_same {A : Type} (t : tensor A) :
  wf_tensor t -> broadcast_to t (shape t) = Ok t.
Proof.
  intros Hwf. unfold broadcast_to, pad_shape.
  rewrite Nat.sub_diag, Nat.leb_refl. cbn [repeat app].
  rewrite expandable_same. cbn [andb].
  rewrite expand_same by exact Hwf. now destruct t.
Qed.

Lemma broadcast_to_shape {A : Type} (t t' : tensor A) (sh : list nat) :
  broadcast_to t sh = Ok t' -> shape t' = sh.
Proof.
  unfold broadcast_to.
  destruct ((length (shape t) <=? length sh)
            && expandable (pad_shape (length sh) (shape t)) sh); [|discriminate].
  now intros [= <-].
Qed.

Lemma sd_update_keys (key : string) (t : tensor Q) (sd : state_dict) :
  map fst (sd_update key t sd) = map fst sd.
Proof.
  induction sd as [|[k t0] sd IH]; simpl; auto.
  destruct (String.eqb k key); simpl; congruence.
Qed.

Lemma sd_update_shapes (key : string) (t dst : tensor Q) (sd : state_dict) :
  sd_lookup key sd = Some dst ->
  shape t = shape dst ->
  map (fun kt => shape (snd kt)) (sd_update key t sd)
  = map (fun kt => shape (snd kt)) sd.
Proof.
  induction sd as [|[k t0] sd IH]; simpl; auto.
  destruct (String.eqb k key); simpl.
  - intros [= ->] Hs. now rewrite Hs.
  - intros Hl Hs. now rewrite IH.
Qed.

Lemma sd_lookup_update_other (key key' : string) (t : tensor Q) (sd : state_dict) :
  key' <> key -> sd_lookup key' (sd_update key t sd) = sd_lookup key' sd.
Proof.
  intros Hne. induction sd as [|[k t0] sd IH]; simpl; auto.
  destruct (String.eqb_spec k key) as [->|Hk]; simpl.
  - destruct (String.eqb_spec key key'); [congruence | reflexivity].
  - destruct (String.eqb k key'); auto.
Qed.

Lemma sd_lookup_update_same (key : string) (t dst : tensor Q) (sd : state_dict) :
  sd_lookup key sd = Some dst -> sd_lookup key (sd_update key t sd) = Some t.
Proof.
  induction sd as [|[k t0] sd IH]; simpl; [discriminate|].
  destruct (String.eqb k key) eqn:E; simpl; rewrite E; auto.
Qed.

(** Loading never changes which parameters the model has, nor their
    order, nor the shape of any of them. *)
Theorem set_gnn_weights_keeps_keys_and_shapes (weights model_sd sd' : state_dict) :
  _set_gnn_weights weights model_sd = Ok sd' ->
  map fst sd' = map fst model_sd
  /\ map (fun kt => shape (snd kt)) sd' = map (fun kt => shape (snd kt)) model_sd.
Proof.
  revert model_sd. induction weights as [|[key w] weights IH]; intros model_sd H.
  - injection H as <-. auto.
  - cbn [_set_gnn_weights] in H.
    destruct (sd_lookup key model_sd) as [dst|] eqn:Hl; [|now apply IH].
    bind_as H t Ht. apply IH in H. destruct H as [Hk Hs].
    rewrite Hk, Hs, sd_update_keys.
    rewrite (sd_update_shapes key t dst model_sd Hl (broadcast_to_shape _ _ _ Ht)).
    auto.
Qed.

Lemma set_gnn_weights_keeps_keys_and_shapes_witness :
  map fst [("w"%string, mkTensor [1] [10]%Q); ("b"%string, mkTensor [1] [0]%Q)]
  = map fst sample_state_dict
  /\ map (fun kt : string * tensor Q => shape (snd kt))
         [("w"%string, mkTensor [1] [10]%Q); ("b"%string, mkTensor [1] [0]%Q)]
     = map (fun kt => shape (snd kt)) sample_state_dict.
Proof.
  exact (set_gnn_weights_keeps_keys_and_shapes
           [("w"%string, mkTensor [1] [10]%Q); ("extra"%string, mkTensor [2] [1; 2]%Q)]
           sample_state_dict _ eq_refl).
Defined.

Lemma set_gnn_weights_other_key (weights model_sd sd' : state_dict) (key : string) :
  _set_gnn_weights weights model_sd = Ok sd' ->
  ~ In key (map fst weights) ->
  sd_lookup key sd' = sd_lookup key model_sd.
Proof.
  revert model_sd. induction weights as [|[k w] weights IH]; intros model_sd H Hnot.
  - now injection H as <-.
  - cbn [_set_gnn_weights] in H. simpl in Hnot.
    assert (Hk : key <> k) by (intros ->; apply Hnot; now left).
    assert (Hrest : ~ In key (map fst weights)) by (intros Hin; apply Hnot; now right).
    destruct (sd_lookup k model_sd) as [dst|]; [|now apply IH].
    bind_as H t Ht. rewrite (IH _ H Hrest).
    now apply sd_lookup_update_other.
Qed.

(** A partial restore: a parameter of the model whose name is not among
    the loaded weights keeps its tensor, and a loaded weight whose name the
    model does not have is not added. *)
Theorem set_gnn_weights_partial (weights model_sd sd' : state_dict) (key : string) :
  _set_gnn_weights weights model_sd = Ok sd' ->
  (~ In key (map fst weights) -> sd_lookup key sd' = sd_lookup key model_sd)
  /\ (sd_lookup key model_sd = None -> sd_lookup key sd' = None).
Proof.
  intros H. split.
  - now apply set_gnn_weights_other_key.
  - revert model_sd H. induction weights as [|[k w] weights IH]; intros model_sd H Hn.
    + now injection H as <-.
    + cbn [_set_gnn_weights] in H.
      destruct (sd_lookup k model_sd) as [dst|] eqn:Hl; [|now apply (IH model_sd)].
      bind_as H t Ht. apply (IH _ H).
      rewrite sd_lookup_update_other; [exact Hn|].
      intros ->. congruence.
Qed.

Lemma set_gnn_weights_partial_witness :
  sd_lookup "b" [("w"%string, mkTensor [1] [10]%Q); ("b"%string, mkTensor [1] [0]%Q)]
  = sd_lookup "b" sample_state_dict
  /\ sd_lookup "extra"
       [("w"%string, mkTensor [1] [10]%Q); ("b"%string, mkTensor [1] [0]%Q)]
     = None.
Proof.
  split.
  - apply (proj1 (set_gnn_weights_partial
                    [("w"%string, mkTensor [1] [10]%Q);
                     ("extra"%string, mkTensor [2] [1; 2]%Q)]
                    sample_state_dict _ "b" eq_refl)).
    intros [H|[H|[]]]; discriminate H.
  - apply (proj2 (set_gnn_weights_partial
                    [("w"%string, mkTensor [1] [10]%Q);
                     ("extra"%string, mkTensor [2] [1; 2]%Q)]
                    sample_state_dict _ "extra" eq_refl)).
    reflexivity.
Defined.

(** A loaded weight that the model has under the same name and with the
    same shape replaces the model's tensor, entry for entry. *)
Theorem set_gnn_weights_restores (weights model_sd sd' : state_dict)
    (key : string) (w dst : tensor Q) :
  _set_gnn_weights weights model_sd = Ok sd' ->
  NoDup (map fst weights) ->
  In (key, w) weights ->
  sd_lookup key model_sd = Some dst ->
  shape w = shape dst ->
  wf_tensor w ->
  sd_lookup key sd' = Some w.
Proof.
  revert model_sd dst.
  induction weights as [|[k w0] weights IH]; intros model_sd dst H Hnd Hin Hl Hs Hwf;
    [contradiction|].
  cbn [_set_gnn_weights] in H. simpl in Hnd. inversion Hnd as [|? ? Hk Hnd']; subst.
  destruct Hin as [Heq|Hin].
  - injection Heq as -> ->. rewrite Hl in H.
    rewrite <- Hs, (broadcast_to_same w Hwf) in H. cbn [bind] in H.
    rewrite (set_gnn_weights_other_key _ _ _ key H Hk).
    now apply (sd_lookup_update_same key w dst).
  - assert (Hne : key <> k).
    { intros ->. apply Hk. apply in_map_iff. exists (k, w). auto. }
    destruct (sd_lookup k model_sd) as [dst0|] eqn:Hl0.
    + bind_as H t Ht. apply (IH _ dst H Hnd' Hin); auto.
      now rewrite sd_lookup_update_other.
    + now apply (IH _ dst H Hnd' Hin).
Qed.

Lemma set_gnn_weights_restores_witness :
  sd_lookup "w" [("w"%string, mkTensor [1] [10]%Q); ("b"%string, mkTensor [1] [0]%Q)]
  = Some (mkTensor [1] [10]%Q)
  /\ _set_gnn_weights
       [("w"%string, mkTensor [1] [10]%Q); ("extra"%string, mkTensor [2] [1; 2]%Q)]
       sample_state_dict
     = Ok [("w"%string, mkTensor [1] [10]%Q); ("b"%string, mkTensor [1] [0]%Q)].
Proof.
  split; [|reflexivity].
  apply (set_gnn_weights_restores
           [("w"%string, mkTensor [1] [10]%Q); ("extra"%string, mkTensor [2] [1; 2]%Q)]
           sample_state_dict _ "w" (mkTensor [1] [10]%Q) (mkTensor [1] [0]%Q) eq_refl).
  - repeat constructor; simpl; intuition discriminate.
  - now left.
  - reflexivity.
  - reflexivity.
  - reflexivity.
Defined.

(* ================================================================== *)
(** * Further properties of learn *)

(** ** The critic loss *)

Lemma Qsum_acc_nonneg (l : list Q) (acc : Q) :
  (0 <= acc)%Q -> Forall (fun q => (0 <= q)%Q) l -> (0 <= fold_left Qplus l acc)%Q.
Proof.
  intros Hacc Hl. revert acc Hacc.
  induction Hl as [|q l Hq _ IH]; intros acc Hacc; simpl; auto.
  apply IH. rewrite <- (Qplus_0_l 0). now apply Qplus_le_compat.
Qed.

Lemma Qsum_nonneg (l : list Q) : Forall (fun q => (0 <= q)%Q) l -> (0 <= Qsum l)%Q.
Proof.
  apply Qsum_acc_nonneg. apply Qle_refl.
Qed.

Lemma Qsquare_nonneg (a : Q) : (0 <= Qpower a 2)%Q.
Proof.
  simpl. unfold Qle, Qmult. simpl. nia.
Qed.

Lemma tmean_nonneg (t : tensor Q) :
  Forall (fun q => (0 <= q)%Q) (data t) -> (0 <= tmean t)%Q.
Proof.
  intros H. unfold tmean, Qdiv.
  apply Qmult_le_0_compat; [now apply Qsum_nonneg|].
  apply Qinv_le_0_compat.
  unfold Qle. simpl. lia.
Qed.

(** The critic loss that [learn] reports is never negative, whatever the
    advantage. *)
Theorem critic_loss_nonneg (advantage : tensor Q) (loss : Q) :
  critic_loss_of advantage = Ok loss -> (0 <= loss)%Q.
Proof.
  unfold critic_loss_of. intros H. bind_as H t Ht. injection H as <-.
  apply tmean_nonneg.
  destruct advantage as [sh d].
  unfold sum_axis1 in Ht. cbn [tmap shape data] in Ht.
  destruct sh as [|r [|c rest]]; try discriminate.
  injection Ht as <-. cbn [data].
  assert (Hsq : Forall (fun q => (0 <= q)%Q) (map (fun a => Qpower a 2) d)).
  { rewrite Forall_map. apply Forall_forall. intros a _. apply Qsquare_nonneg. }
  unfold rows_of. cbn [shape data tmap].
  rewrite flat_map_concat_map. apply Forall_concat. rewrite Forall_map.
  pose proof (chunks_Forall _ r (numel (c :: rest)) _ Hsq) as Hrows.
  rewrite Forall_forall in Hrows. apply Forall_forall. intros row Hrow.
  rewrite Forall_map. apply Forall_forall. intros k _.
  apply Qsum_nonneg. rewrite Forall_map.
  pose proof (chunks_Forall _ c (numel rest) _ (Hrows row Hrow)) as Hblocks.
  rewrite Forall_forall in Hblocks. apply Forall_forall. intros b Hb.
  apply (Forall_nth_default (fun q => (0 <= q)%Q) b 0%Q k (Hblocks b Hb)).
  apply Qle_refl.
Qed.

Lemma critic_loss_nonneg_witness :
  exists loss,
    critic_loss_of (mkTensor [2; 2] [4; -4; 4; -4]%Q) = Ok loss /\ (0 <= loss)%Q.
Proof.
  eexists. split; [reflexivity|].
  apply (critic_loss_nonneg (mkTensor [2; 2] [4; -4; 4; -4]%Q)). reflexivity.
Defined.

(** ** How the returns meet the values *)

Lemma expand_row_over_batch {A : Type} (b p : nat) (d : list A) :
  length d = p -> expand [1; p] [b; p] d = concat (repeat d b).
Proof.
  intros Hd. cbn [expand Nat.eqb].
  change (numel [p]) with (p * 1). rewrite Nat.mul_1_r. cbn [Nat.mul skipn].
  rewrite firstn_all2 by lia.
  rewrite (flat_map_ext _ (fun _ : nat => d)).
  - apply flat_map_const.
  - intros i. apply (expand_same [p] d). simpl. lia.
Qed.

Lemma broadcast_row_over_batch {A : Type} (b p : nat) (d : list A) :
  length d = p ->
  broadcast_to (mkTensor [p] d) [b; p] = Ok (mkTensor [b; p] (concat (repeat d b))).
Proof.
  intros Hd. unfold broadcast_to, pad_shape. cbn [shape data length Nat.sub repeat app].
  assert (Hx : expandable [1; p] [b; p] = true).
  { cbn [expandable]. rewrite (Nat.eqb_refl p). destruct b as [|[|b]]; reflexivity. }
  rewrite Hx. cbn [Nat.leb andb].
  now rewrite expand_row_over_batch.
Qed.

Lemma broadcast_shapes_row (b p : nat) : broadcast_shapes [p] [b; p] = Some [b; p].
Proof.
  unfold broadcast_shapes, pad_shape. cbn [length Nat.max Nat.sub repeat app].
  cbn [broadcast_shapes_aligned]. rewrite Nat.eqb_refl.
  destruct (Nat.eqb_spec 1 b) as [<-|_]; reflexivity.
Qed.

Lemma concat_repeat_nth_block {A : Type} (d : list A) (b i j : nat) (dflt : A) :
  i < b -> j < length d ->
  nth (i * length d + j) (concat (repeat d b)) dflt = nth j d dflt.
Proof.
  intros Hi Hj.
  rewrite concat_nth_block; [| |exact Hj].
  - now rewrite nth_repeat_lt.
  - apply Forall_forall. intros l Hl. now apply repeat_spec in Hl; subst.
Qed.

Lemma broadcast_to_same_shape {A : Type} (sh : list nat) (d : list A) :
  length d = numel sh -> broadcast_to (mkTensor sh d) sh = Ok (mkTensor sh d).
Proof.
  intros Hd. exact (broadcast_to_same (mkTensor sh d) Hd).
Qed.

Section LearnFacts.

Variable config : GNNBasedActorCriticConfig.

(** A rank-1 [returns] meets the values along their last axis, the port
    axis: with one return per port, entry (i, j) of the advantage is
    [returns[j] + value_discount * values_[i, j] - values[i, j]], the
    return of index j for every batch element i. *)
Theorem td_advantage_rank1_returns_by_port (b p : nat) (r v_ v : list Q) :
  length r = p -> length v_ = b * p -> length v = b * p ->
  exists advantage,
    td_advantage config (mkTensor [p] r) (mkTensor [b; p] v_) (mkTensor [b; p] v)
    = Ok advantage
    /\ shape advantage = [b; p]
    /\ forall i j, i < b -> j < p ->
         nth (i * p + j) (data advantage) 0%Q
         = (nth j r 0 + value_discount config * nth (i * p + j) v_ 0
            - nth (i * p + j) v 0)%Q.
Proof.
  intros Hr Hv_ Hv. unfold td_advantage, binop, tmap. cbn [shape data].
  rewrite broadcast_shapes_row.
  rewrite (broadcast_row_over_batch b p r Hr). cbn [bind].
  rewrite (broadcast_to_same_shape [b; p] (map (Qmult (value_discount config)) v_))
    by (simpl; rewrite length_map; lia).
  cbn [bind shape data]. rewrite broadcast_shapes_same.
  assert (Hlen1 : length (zip_with Qplus (concat (repeat r b))
                            (map (Qmult (value_discount config)) v_)) = b * p).
  { rewrite zip_with_length, length_map, (concat_length_blocks p).
    - rewrite repeat_length. lia.
    - apply Forall_forall. intros l Hl. now apply repeat_spec in Hl; subst. }
  rewrite (broadcast_to_same_shape [b; p] (zip_with Qplus _ _))
    by (simpl; rewrite Hlen1; lia).
  rewrite (broadcast_to_same_shape [b; p] v) by (simpl; lia).
  cbn [bind shape data].
  eexists. split; [reflexivity|]. split; [reflexivity|].
  intros i j Hi Hj. cbn [data].
  assert (Hn : i * p + j < b * p) by nia.
  rewrite zip_with_nth with (da := 0%Q) (db := 0%Q) by lia.
  rewrite zip_with_nth with (da := 0%Q) (db := 0%Q).
  - subst p. rewrite concat_repeat_nth_block by assumption.
    rewrite nth_indep with (d' := (value_discount config * 0)%Q)
                           (l := map _ v_) by (rewrite length_map; lia).
    now rewrite (map_nth (Qmult (value_discount config))).
  - rewrite (concat_length_blocks p).
    + rewrite repeat_length. lia.
    + apply Forall_forall. intros l Hl. now apply repeat_spec in Hl; subst.
  - rewrite length_map. lia.
Qed.

(** A rank-1 [returns] with one entry per batch element does not fit
    values of shape (batch, port count) unless the two sizes agree (or one
    of them is 1): line 116 stops with a [RuntimeError]. *)
Theorem td_advantage_rank1_returns_mismatch (n b p : nat) (r v_ v : list Q) :
  n <> p -> n <> 1 -> p <> 1 ->
  td_advantage config (mkTensor [n] r) (mkTensor [b; p] v_) (mkTensor [b; p] v)
  = Err RuntimeError.
Proof.
  intros Hnp Hn Hp. unfold td_advantage, binop, tmap. cbn [shape].
  unfold broadcast_shapes, pad_shape. cbn [length Nat.max Nat.sub repeat app].
  cbn [broadcast_shapes_aligned].
  destruct (Nat.eqb_spec n p); [contradiction|].
  destruct (Nat.eqb_spec n 1); [contradiction|].
  destruct (Nat.eqb_spec p 1); [contradiction|].
  reflexivity.
Qed.

Lemma norm_index_out_of_range (i : Z) (n : nat) :
  (Z.of_nat n <= i \/ i < - Z.of_nat n)%Z -> norm_index i n = Err IndexError.
Proof.
  intros H. unfold norm_index.
  destruct (Z.leb_spec 0 i), (Z.ltb_spec i (Z.of_nat n)),
    (Z.leb_spec (- Z.of_nat n) i), (Z.ltb_spec i 0); simpl; try reflexivity; lia.
Qed.

(** The acting port index is checked only by the entropy bonus: with a
    non-zero [entropy_factor] an index outside [-p_cnt, p_cnt) stops line
    120 with an [IndexError]. *)
Theorem entropy_bonus_index_error (b p : nat) (rest : list nat) (d : list Q)
    (entropy_loss : tensor Q) (p_idx : Z) :
  Qeq_bool (entropy_factor config) 0 = false ->
  (Z.of_nat p <= p_idx \/ p_idx < - Z.of_nat p)%Z ->
  entropy_bonus config p_idx entropy_loss (mkTensor (b :: p :: rest) d)
  = Err IndexError.
Proof.
  intros Hef Hidx. unfold entropy_bonus, Qnonzero. rewrite Hef. cbn [negb].
  unfold col_iadd. cbn [shape].
  now rewrite (norm_index_out_of_range p_idx p Hidx).
Qed.

End LearnFacts.

Lemma td_advantage_rank1_returns_by_port_witness :
  exists advantage,
    td_advantage scenario_config (mkTensor [2] [5; 7]%Q)
      (mkTensor [3; 2] [0; 0; 0; 0; 0; 0]%Q) (mkTensor [3; 2] [1; 1; 1; 1; 1; 1]%Q)
    = Ok advantage
    /\ shape advantage = [3; 2]
    /\ forall i j, i < 3 -> j < 2 ->
         nth (i * 2 + j) (data advantage) 0%Q
         = (nth j [5; 7] 0 + value_discount scenario_config
                             * nth (i * 2 + j) [0; 0; 0; 0; 0; 0] 0
            - nth (i * 2 + j) [1; 1; 1; 1; 1; 1] 0)%Q.
Proof.
  exact (td_advantage_rank1_returns_by_port scenario_config 3 2 [5; 7]%Q
           [0; 0; 0; 0; 0; 0]%Q [1; 1; 1; 1; 1; 1]%Q eq_refl eq_refl eq_refl).
Defined.

Lemma td_advantage_rank1_returns_mismatch_witness :
  td_advantage scenario_config (mkTensor [3] [5; 5; 5]%Q)
    (mkTensor [3; 2] [0; 0; 0; 0; 0; 0]%Q) (mkTensor [3; 2] [1; 1; 1; 1; 1; 1]%Q)
  = Err RuntimeError.
Proof.
  apply (td_advantage_rank1_returns_mismatch scenario_config 3 3 2); lia.
Defined.

Lemma entropy_bonus_index_error_witness :
  entropy_bonus scenario_config 2 (mkTensor [2] [1; 1]%Q)
                (mkTensor [2; 2] [4; 4; 4; 4]%Q)
  = Err IndexError.
Proof.
  apply (entropy_bonus_index_error scenario_config 2 2 [] [4; 4; 4; 4]%Q
           (mkTensor [2] [1; 1]%Q) 2 eq_refl).
  left. simpl. lia.
Defined.

(** ** What learn reads of the configuration *)

Section ConfigUse.

Variable model : Type.
Variable forward :
  model -> batched_graph -> option Z -> option Z ->
  option bool -> option bool -> option bool -> tensor Q * tensor Q.
Variable step : model -> Q -> model * Q.
Variable log_prob : tensor Q -> tensor Z -> tensor Q.
Variable entropy : tensor Q -> tensor Q.
Variable dev : device.

(** [learn] reads [p2p_adj], [value_discount], [actor_loss_coefficient]
    and [entropy_factor] of the configuration and nothing else: two
    configurations that agree on these four fields give the same result,
    whatever their [td_steps] and [reward_discount]. *)
Theorem learn_ignores_td_steps (c1 c2 : GNNBasedActorCriticConfig)
    (m : model) (states : raw_state) (actions : tensor Z) (returns : tensor Q)
    (next_states : raw_state) (p_idx v_idx : Z) :
  p2p_adj c1 = p2p_adj c2 ->
  value_discount c1 = value_discount c2 ->
  actor_loss_coefficient c1 = actor_loss_coefficient c2 ->
  entropy_factor c1 = entropy_factor c2 ->
  learn forward step log_prob entropy c1 dev m states actions returns next_states
        p_idx v_idx
  = learn forward step log_prob entropy c2 dev m states actions returns next_states
          p_idx v_idx.
Proof.
  destruct c1 as [p1 n1 g1 vd1 a1 e1], c2 as [p2 n2 g2 vd2 a2 e2].
  cbn [p2p_adj value_discount actor_loss_coefficient entropy_factor].
  intros -> -> -> ->. reflexivity.
Qed.

End ConfigUse.

Lemma learn_ignores_td_steps_witness :
  learn sample_forward sample_step sample_log_prob sample_entropy
        scenario_config CPU tt scenario_state (mkTensor [2] [0; 0]%Z)
        (mkTensor [2] [5; 5]%Q) scenario_state 0 0
  = learn sample_forward sample_step sample_log_prob sample_entropy
          (GNNBasedActorCriticConfig_init (mkTensor [2; 2] [0; 1; 1; 0]%Z) 50 1
             default_actor_loss_coefficient default_entropy_factor)
          CPU tt scenario_state (mkTensor [2] [0; 0]%Z)
          (mkTensor [2] [5; 5]%Q) scenario_state 0 0.
Proof.
  apply (@learn_ignores_td_steps unit sample_forward sample_step sample_log_prob
           sample_entropy CPU); reflexivity.
Defined.
